(** * A concurrent range downloader: chunk allocation and worker coordination

    Shallow embedding of [main.go]: the HEAD size probe, the destination
    check, the shared allocation cursor, the worker goroutines, the status
    channel, the progress goroutine and the deferred shutdown of [main].

    Conventions.
    - [uint64] values are [Z] in [0, 2^64); every Go operation on them is
      followed by its wrap-around.  Go's [int] is taken to be 64 bits wide.
    - Goroutines are interleaved by a schedule: a list of events, one atomic
      action of one goroutine each.  What the network and the disk answer is
      carried by the event.
    - Besides the program's variables a state keeps history logs (cursor
      values handed out, ranges issued, requests sent, notifications sent,
      lines printed); the program never reads them. *)

From stdpp Require Import base tactics option list numbers strings sets.
From Stdlib Require Import ZArith Lia.
From Stdlib.Strings Require Byte.

Local Open Scope Z_scope.

(** * Part I: the program *)

(** ** Machine integers *)

Module U64.

Definition modulus : Z := 2 ^ 64.
Definition half : Z := 2 ^ 63.

(** Reduction of a mathematical integer to a [uint64]. *)
Definition wrap (z : Z) : Z := z mod modulus.

Definition add (a b : Z) : Z := wrap (a + b).
Definition sub (a b : Z) : Z := wrap (a - b).
Definition mul (a b : Z) : Z := wrap (a * b).

Definition in_range (z : Z) : Prop := 0 <= z < modulus.

(** The conversions [int64(x)] and [int(x)] of a [uint64]: same bits, read
    in two's complement. *)
Definition to_int (z : Z) : Z := if z <? half then z else z - modulus.

(** Addition of two [int]s. *)
Definition int_add (a b : Z) : Z := to_int (wrap (a + b)).

End U64.

(** ** The chunk allocator *)

(** A byte range as a worker derives it: [index] is the value of the local
    [partCount], [first] and [last] are [start] and [end] (inclusive). *)
Record range : Type := Range {
  index : Z;
  first : Z;
  last : Z
}.

Global Instance range_eq_dec : EqDecision range.
Proof. solve_decision. Defined.

(** [atomic.AddUint64(addr, delta)]: stores and returns the new value. *)
Definition AddUint64 (addr delta : Z) : Z * Z :=
  let new := U64.add addr delta in (new, new).

Section Allocator.

Variable chunkSize : Z.
Variable size : Z.

(** The head of the worker loop, up to the derivation of [end]:
<<
    partCount := atomic.AddUint64(&partCount, 1) - 1
    start := partCount * chunkSize
    if start >= size { return }
    end := (partCount+1)*chunkSize - 1
>>
    The result is the new cursor and either the range or [None] for the
    [return]. *)
Definition NextChunk (cursor : Z) : Z * option range :=
  let '(cursor', new) := AddUint64 cursor 1 in
  let partCount := U64.sub new 1 in
  let start := U64.mul partCount chunkSize in
  if size <=? start then (cursor', None)
  else
    let end_ := U64.sub (U64.mul (U64.add partCount 1) chunkSize) 1 in
    (cursor', Some (Range partCount start end_)).

(** One worker alone, calling the allocator until it answers no more work.
    [None] when the fuel runs out first. *)
Fixpoint drain (fuel : nat) (cursor : Z) : option (list range) :=
  match fuel with
  | O => None
  | S fuel' =>
      match NextChunk cursor with
      | (_, None) => Some []
      | (cursor', Some r) => cons r <$> drain fuel' cursor'
      end
  end.

(** Number of chunks of the resource, [ceil (size / chunkSize)]. *)
Definition chunks : Z := (size + chunkSize - 1) / chunkSize.

(** The range the specification assigns to index [i]. *)
Definition range_of (i : Z) : range :=
  Range i (i * chunkSize) ((i + 1) * chunkSize - 1).

Definition expected_ranges : list range :=
  (fun i : nat => range_of (Z.of_nat i)) <$> seq 0 (Z.to_nat chunks).

(** Two inclusive ranges share no byte. *)
Definition disjoint_ranges (r1 r2 : range) : Prop :=
  last r1 < first r2 \/ last r2 < first r1.

(** What the specification promises of a lone drain: it ends, the ranges are
    those of the indices [0 .. chunks - 1] in order, they are non-empty and
    pairwise disjoint, every byte of [0, size) lies in one, and only the last
    one may pass [size - 1]. *)
Definition allocator_spec : Prop :=
  exists fuel l,
    drain fuel 0 = Some l
    /\ l = expected_ranges
    /\ (forall r, r ∈ l -> first r <= last r)
    /\ (forall (i j : nat) r1 r2, l !! i = Some r1 -> l !! j = Some r2 ->
          i <> j -> disjoint_ranges r1 r2)
    /\ (forall b, 0 <= b < size -> exists r, r ∈ l /\ first r <= b <= last r)
    /\ (forall (i : nat) r, l !! i = Some r -> (S i < length l)%nat ->
          last r <= size - 1).

(** The cursor arithmetic of [workers] goroutines stays below [2^64]. *)
Definition fits (workers : nat) : Prop :=
  (chunks + Z.of_nat workers - 1) * chunkSize < U64.modulus.

End Allocator.

(** ** Network, file and output *)

(** What [client.Do] and the copy of the body give for one GET.  [DoErr]:
    [client.Do] returned an error.  [Resp code body cut]: a response with
    status [code] arrived; [io.Copy] moved the whole [body] ([cut = None]) or
    stopped with an error after [k] bytes ([cut = Some k]), whether the
    stream or the file failed. *)
Inductive reply : Type :=
| DoErr
| Resp (statusCode : Z) (body : list Byte.byte) (cut : option nat).

(** The answer to one pass of a worker: [http.NewRequest] failed, or the
    request went out. *)
Inductive get_result : Type :=
| NewRequestErr
| Sent (a : reply).

Inductive request : Type :=
| Head
| Get (t : nat) (start end_ : Z).

(** One positional write: the bytes [io.Copy] passed to the
    [io.OffsetWriter] based at [w_off], in order.  [w_ticket] names the
    claim the write belongs to. *)
Record write : Type := Write {
  w_ticket : nat;
  w_off : Z;
  w_data : list Byte.byte
}.

Inductive error : Type :=
| ErrNewRequest
| ErrNoContentLength
| ErrSyntax
| ErrRange
| ErrOpen.

Global Instance error_eq_dec : EqDecision error.
Proof. solve_decision. Defined.

Inductive line : Type :=
| LogFileExists
| LogStatError
| LogFatal (e : error)
| PanicNilDereference
| PanicMakeSlice
| LogNewRequest
| LogWhileDownloading
| LogErrorDownloading
| Progress (totalDownloaded size : Z)
| DownloadComplete.

Global Instance line_eq_dec : EqDecision line.
Proof. solve_decision. Defined.

(** [io.Copy(location, resp.Body)]: the bytes that reached the writer, and
    whether an error came back. *)
Definition Copy (body : list Byte.byte) (cut : option nat)
  : list Byte.byte * bool :=
  match cut with
  | None => (body, false)
  | Some k => (take k body, true)
  end.

(** [(d *downloader).Download]: the payloads written to [location], whether
    the returned error is non-nil, and the lines logged.  The status code of
    the response is not looked at. *)
Definition Download (a : reply) : list (list Byte.byte) * bool * list line :=
  match a with
  | DoErr => ([], true, [LogWhileDownloading])
  | Resp _ body cut => let '(data, err) := Copy body cut in ([data], err, [])
  end.

(** ** Goroutines *)

(** Where a worker goroutine stands. *)
Inductive wstate : Type :=
| WClaim
| WDownload (t : nat) (r : range)
| WSend (t : nat) (n : Z)
| WDone.

(** Where [main] stands once the workers are started: in the deferred
    [wg.Wait()], before the deferred [close(status)], before the deferred
    [file.Close()] and the return, or gone with an exit status. *)
Inductive mstate : Type :=
| MWait
| MClose
| MFileClose
| MExited (code : Z).

Record state : Type := State {
  partCount : Z;
  workers : list wstate;
  status : list Z;
  status_closed : bool;
  totalDownloaded : Z;
  aggregator_done : bool;
  main_pc : mstate;
  file : list write;
  fetched : list Z;
  issued : list (nat * range);
  http : list request;
  succeeded : list nat;
  failed : list nat;
  notes : list (nat * Z);
  output : list line
}.

Definition set_partCount (v : Z) (s : state) : state :=
  State v (workers s) (status s) (status_closed s) (totalDownloaded s)
    (aggregator_done s) (main_pc s) (file s) (fetched s) (issued s) (http s)
    (succeeded s) (failed s) (notes s) (output s).

Definition set_worker (i : nat) (w : wstate) (s : state) : state :=
  State (partCount s) (<[i := w]> (workers s)) (status s) (status_closed s)
    (totalDownloaded s) (aggregator_done s) (main_pc s) (file s) (fetched s)
    (issued s) (http s) (succeeded s) (failed s) (notes s) (output s).

Definition set_status (v : list Z) (s : state) : state :=
  State (partCount s) (workers s) v (status_closed s) (totalDownloaded s)
    (aggregator_done s) (main_pc s) (file s) (fetched s) (issued s) (http s)
    (succeeded s) (failed s) (notes s) (output s).

Definition set_status_closed (v : bool) (s : state) : state :=
  State (partCount s) (workers s) (status s) v (totalDownloaded s)
    (aggregator_done s) (main_pc s) (file s) (fetched s) (issued s) (http s)
    (succeeded s) (failed s) (notes s) (output s).

Definition set_totalDownloaded (v : Z) (s : state) : state :=
  State (partCount s) (workers s) (status s) (status_closed s) v
    (aggregator_done s) (main_pc s) (file s) (fetched s) (issued s) (http s)
    (succeeded s) (failed s) (notes s) (output s).

Definition set_aggregator_done (v : bool) (s : state) : state :=
  State (partCount s) (workers s) (status s) (status_closed s)
    (totalDownloaded s) v (main_pc s) (file s) (fetched s) (issued s) (http s)
    (succeeded s) (failed s) (notes s) (output s).

Definition set_main_pc (v : mstate) (s : state) : state :=
  State (partCount s) (workers s) (status s) (status_closed s)
    (totalDownloaded s) (aggregator_done s) v (file s) (fetched s) (issued s)
    (http s) (succeeded s) (failed s) (notes s) (output s).

Definition log_file (v : list write) (s : state) : state :=
  State (partCount s) (workers s) (status s) (status_closed s)
    (totalDownloaded s) (aggregator_done s) (main_pc s) (file s ++ v)
    (fetched s) (issued s) (http s) (succeeded s) (failed s) (notes s)
    (output s).

Definition log_fetched (v : Z) (s : state) : state :=
  State (partCount s) (workers s) (status s) (status_closed s)
    (totalDownloaded s) (aggregator_done s) (main_pc s) (file s)
    (fetched s ++ [v]) (issued s) (http s) (succeeded s) (failed s) (notes s)
    (output s).

Definition log_issued (v : nat * range) (s : state) : state :=
  State (partCount s) (workers s) (status s) (status_closed s)
    (totalDownloaded s) (aggregator_done s) (main_pc s) (file s) (fetched s)
    (issued s ++ [v]) (http s) (succeeded s) (failed s) (notes s) (output s).

Definition log_http (v : request) (s : state) : state :=
  State (partCount s) (workers s) (status s) (status_closed s)
    (totalDownloaded s) (aggregator_done s) (main_pc s) (file s) (fetched s)
    (issued s) (http s ++ [v]) (succeeded s) (failed s) (notes s) (output s).

Definition log_succeeded (v : nat) (s : state) : state :=
  State (partCount s) (workers s) (status s) (status_closed s)
    (totalDownloaded s) (aggregator_done s) (main_pc s) (file s) (fetched s)
    (issued s) (http s) (succeeded s ++ [v]) (failed s) (notes s) (output s).

Definition log_failed (v : nat) (s : state) : state :=
  State (partCount s) (workers s) (status s) (status_closed s)
    (totalDownloaded s) (aggregator_done s) (main_pc s) (file s) (fetched s)
    (issued s) (http s) (succeeded s) (failed s ++ [v]) (notes s) (output s).

Definition log_note (v : nat * Z) (s : state) : state :=
  State (partCount s) (workers s) (status s) (status_closed s)
    (totalDownloaded s) (aggregator_done s) (main_pc s) (file s) (fetched s)
    (issued s) (http s) (succeeded s) (failed s) (notes s ++ [v]) (output s).

Definition log_output (v : list line) (s : state) : state :=
  State (partCount s) (workers s) (status s) (status_closed s)
    (totalDownloaded s) (aggregator_done s) (main_pc s) (file s) (fetched s)
    (issued s) (http s) (succeeded s) (failed s) (notes s) (output s ++ v).

(** One atomic action of one goroutine. *)
Inductive event : Type :=
| EvWorker (i : nat) (r : get_result)
| EvAggregator
| EvMain.

(** [status := make(chan Status, 1)] *)
Definition status_cap : nat := 1.

Definition is_done (w : wstate) : bool :=
  match w with WDone => true | _ => false end.

Section Run.

Variable chunkSize : Z.
Variable size : Z.

(** [Status{Downloaded: int(end - start + 1)}] *)
Definition Downloaded (r : range) : Z :=
  U64.to_int (U64.add (U64.sub (last r) (first r)) 1).

(** One action of worker [i].
    - [WClaim]: the atomic add and the derivation of the range; on
      [start >= size] the goroutine returns.
    - [WDownload]: from [http.NewRequest] to the return of [Download]; on an
      error the goroutine logs and returns.
    - [WSend]: [status <- Status{...}]; nothing happens while the buffer is
      full. *)
Definition worker_step (i : nat) (r : get_result) (s : state) : state :=
  match workers s !! i with
  | None => s
  | Some WDone => s
  | Some WClaim =>
      let '(cursor', res) := NextChunk chunkSize size (partCount s) in
      let t := length (fetched s) in
      let s1 := log_fetched (partCount s) (set_partCount cursor' s) in
      match res with
      | None => set_worker i WDone s1
      | Some rg => log_issued (t, rg) (set_worker i (WDownload t rg) s1)
      end
  | Some (WDownload t rg) =>
      match r with
      | NewRequestErr =>
          log_output [LogNewRequest] (log_failed t (set_worker i WDone s))
      | Sent a =>
          let '(data, err, lines) := Download a in
          let offset := U64.to_int (first rg) in
          let s1 :=
            log_file (Write t offset <$> data)
              (log_http (Get t (first rg) (last rg)) s) in
          if err then
            log_output (lines ++ [LogErrorDownloading])
              (log_failed t (set_worker i WDone s1))
          else
            log_succeeded t (set_worker i (WSend t (Downloaded rg)) s1)
      end
  | Some (WSend t n) =>
      if (length (status s) <? status_cap)%nat then
        log_note (t, n) (set_status (status s ++ [n]) (set_worker i WClaim s))
      else s
  end.

(** One action of the progress goroutine: receive one [Status] and print the
    ratio, or, on a closed and empty channel, leave the loop and print
    [Download complete]. *)
Definition aggregator_step (s : state) : state :=
  if aggregator_done s then s
  else
    match status s with
    | n :: rest =>
        let total := U64.int_add (totalDownloaded s) n in
        log_output [Progress total size]
          (set_totalDownloaded total (set_status rest s))
    | [] =>
        if status_closed s then
          log_output [DownloadComplete] (set_aggregator_done true s)
        else s
    end.

(** One action of [main] running its deferred calls, last registered first:
    [wg.Wait()], [close(status)], [file.Close()]; then [main] returns and the
    process is gone. *)
Definition main_step (s : state) : state :=
  match main_pc s with
  | MWait => if forallb is_done (workers s) then set_main_pc MClose s else s
  | MClose => set_main_pc MFileClose (set_status_closed true s)
  | MFileClose => set_main_pc (MExited 0) s
  | MExited _ => s
  end.

(** Nothing runs once the process has exited. *)
Definition step (s : state) (ev : event) : state :=
  match main_pc s with
  | MExited _ => s
  | _ =>
      match ev with
      | EvWorker i r => worker_step i r s
      | EvAggregator => aggregator_step s
      | EvMain => main_step s
      end
  end.

Definition exec (s : state) (sched : list event) : state :=
  foldl step s sched.

(** The state in which [main] has started [n] workers and the progress
    goroutine and reaches its deferred calls. *)
Definition init (n : nat) (lines : list line) (reqs : list request) : state :=
  State 0 (replicate n WClaim) [] false 0 false MWait [] [] [] reqs [] [] []
    lines.

Definition run (n : nat) (sched : list event) : state :=
  exec (init n [] [Head]) sched.

Definition exited (s : state) : Prop :=
  exists code, main_pc s = MExited code.

(** Every way of scheduling the goroutines from [s] on ends in the exit of
    the process: while it has not exited some action is possible, and
    whichever is taken the same holds afterwards. *)
Inductive all_runs_exit : state -> Prop :=
| are_exited s : exited s -> all_runs_exit s
| are_step s :
    (exists ev, step s ev <> s) ->
    (forall ev, step s ev <> s -> all_runs_exit (step s ev)) ->
    all_runs_exit s.

End Run.

(** ** [main] up to the start of the goroutines *)

Inductive stat_result : Type :=
| StatOk
| StatNotExist
| StatOther.

(** What [os.Stat], [http.NewRequest...], [client.Do] for the HEAD request and
    [os.OpenFile] answer.  [HeadFailed]: [client.Do] returned an error and a
    nil response.  [HeadResponse v]: a response whose [Content-Length]
    header reads [v], the empty string when the header is missing. *)
Inductive head_result : Type :=
| HeadFailed
| HeadResponse (contentLength : string).

Record world : Type := World {
  stat : stat_result;
  url_ok : bool;
  head : head_result;
  open_ok : bool
}.

Record flags : Type := Flags {
  url : string;
  name : string;
  override : bool;
  concurrencyLevel : Z
}.

Inductive outcome (A : Type) : Type :=
| Ret (a : A)
| Panicked.

Arguments Ret {A} a.
Arguments Panicked {A}.

Definition digit (c : Ascii.ascii) : option Z :=
  let n := Z.of_nat (Ascii.nat_of_ascii c) in
  if (48 <=? n) && (n <=? 57) then Some (n - 48) else None.

Definition maxUint64 : Z := U64.modulus - 1.

Fixpoint ParseUint_loop (s : string) (n : Z) : Z * option error :=
  match s with
  | EmptyString => (n, None)
  | String c s' =>
      match digit c with
      | None => (0, Some ErrSyntax)
      | Some d =>
          if maxUint64 / 10 + 1 <=? n then (maxUint64, Some ErrRange)
          else
            let n1 := n * 10 + d in
            if maxUint64 <? n1 then (maxUint64, Some ErrRange)
            else ParseUint_loop s' n1
      end
  end.

(** [strconv.ParseUint(s, 10, 64)] *)
Definition ParseUint (s : string) : Z * option error :=
  match s with
  | EmptyString => (0, Some ErrSyntax)
  | _ => ParseUint_loop s 0
  end.

(** [GetFileSize]: the result and the requests sent.  The error of
    [client.Do] is overwritten without being read; with a nil response
    [resp.Header] panics. *)
Definition GetFileSize (w : world)
  : outcome (Z * option error) * list request :=
  if negb (url_ok w) then (Ret (0, Some ErrNewRequest), [])
  else
    match head w with
    | HeadFailed => (Panicked, [Head])
    | HeadResponse contentlength =>
        match contentlength with
        | EmptyString => (Ret (0, Some ErrNoContentLength), [Head])
        | _ => (Ret (ParseUint contentlength), [Head])
        end
    end.

Definition Exists (st : stat_result) (override : bool) : bool * list line :=
  match st with
  | StatOk => if override then (true, []) else (false, [LogFileExists])
  | StatNotExist => (true, [])
  | StatOther => (false, [LogStatError])
  end.

(** The constant of [main]: [var chunkSize uint64 = 10 * 1024 * 1024]. *)
Definition chunkSize : Z := 10 * 1024 * 1024.

(** The process stopped before any goroutine was started. *)
Definition halted (code : Z) (lines : list line) (reqs : list request)
  : state :=
  State 0 [] [] false 0 false (MExited code) [] [] [] reqs [] [] [] lines.

(** [main].  A return from [main] is exit status 0, [log.Fatal] is exit
    status 1, a panic that nothing recovers is exit status 2. *)
Definition main (fl : flags) (w : world) (sched : list event) : state :=
  let '(ok, lines) := Exists (stat w) (override fl) in
  if negb ok then halted 0 lines []
  else
    match GetFileSize w with
    | (Panicked, reqs) => halted 2 (lines ++ [PanicNilDereference]) reqs
    | (Ret (_, Some e), reqs) => halted 1 (lines ++ [LogFatal e]) reqs
    | (Ret (size, None), reqs) =>
        if negb (open_ok w) then halted 1 (lines ++ [LogFatal ErrOpen]) reqs
        else if concurrencyLevel fl <? 0 then
          halted 2 (lines ++ [PanicMakeSlice]) reqs
        else
          exec chunkSize size
            (init (Z.to_nat (concurrencyLevel fl)) lines reqs) sched
    end.


(** ** Transitions *)

Section Transitions.

Variable chunkSize : Z.
Variable size : Z.

(** The actions that change the state, one constructor per program point.
    [step] does one of them or leaves the state as it is. *)
Inductive trans (s : state) : state -> Prop :=
| t_exhausted i cursor' :
    workers s !! i = Some WClaim ->
    NextChunk chunkSize size (partCount s) = (cursor', None) ->
    trans s
      (set_worker i WDone (log_fetched (partCount s) (set_partCount cursor' s)))
| t_claim i cursor' rg :
    workers s !! i = Some WClaim ->
    NextChunk chunkSize size (partCount s) = (cursor', Some rg) ->
    trans s
      (log_issued (length (fetched s), rg)
         (set_worker i (WDownload (length (fetched s)) rg)
            (log_fetched (partCount s) (set_partCount cursor' s))))
| t_new_request i t rg :
    workers s !! i = Some (WDownload t rg) ->
    trans s (log_output [LogNewRequest] (log_failed t (set_worker i WDone s)))
| t_download_err i t rg a data lines :
    workers s !! i = Some (WDownload t rg) ->
    Download a = (data, true, lines) ->
    trans s
      (log_output (lines ++ [LogErrorDownloading])
         (log_failed t
            (set_worker i WDone
               (log_file (Write t (U64.to_int (first rg)) <$> data)
                  (log_http (Get t (first rg) (last rg)) s)))))
| t_download_ok i t rg a data lines :
    workers s !! i = Some (WDownload t rg) ->
    Download a = (data, false, lines) ->
    trans s
      (log_succeeded t
         (set_worker i (WSend t (Downloaded rg))
            (log_file (Write t (U64.to_int (first rg)) <$> data)
               (log_http (Get t (first rg) (last rg)) s))))
| t_send i t n :
    workers s !! i = Some (WSend t n) ->
    (length (status s) < status_cap)%nat ->
    trans s
      (log_note (t, n) (set_status (status s ++ [n]) (set_worker i WClaim s)))
| t_receive n rest :
    aggregator_done s = false ->
    status s = n :: rest ->
    trans s
      (log_output [Progress (U64.int_add (totalDownloaded s) n) size]
         (set_totalDownloaded (U64.int_add (totalDownloaded s) n)
            (set_status rest s)))
| t_complete :
    aggregator_done s = false ->
    status s = [] ->
    status_closed s = true ->
    trans s (log_output [DownloadComplete] (set_aggregator_done true s))
| t_waited :
    main_pc s = MWait ->
    forallb is_done (workers s) = true ->
    trans s (set_main_pc MClose s)
| t_close :
    main_pc s = MClose ->
    trans s (set_main_pc MFileClose (set_status_closed true s))
| t_return :
    main_pc s = MFileClose ->
    trans s (set_main_pc (MExited 0) s).

End Transitions.

(** ** Vocabulary of the properties *)

(** The claim a worker is holding, if any; the claim whose notification it
    is about to send, if any. *)
Definition held (w : wstate) : list nat :=
  match w with
  | WDownload t _ => [t]
  | WSend t _ => [t]
  | _ => []
  end.

Definition sending (w : wstate) : list nat :=
  match w with
  | WSend t _ => [t]
  | _ => []
  end.

Definition all_held (ws : list wstate) : list nat := ws ≫= held.
Definition all_sending (ws : list wstate) : list nat := ws ≫= sending.

Definition total {A : Type} (f : A -> Z) (l : list A) : Z :=
  foldr (fun a acc => f a + acc) 0 l.

(** 1 for a goroutine that has not returned. *)
Definition live (w : wstate) : Z := if is_done w then 0 else 1.

(** Actions a worker can still take before its next cursor fetch. *)
Definition weight (w : wstate) : Z :=
  match w with
  | WClaim => 0
  | WDownload _ _ => 3
  | WSend _ _ => 2
  | WDone => 0
  end.

Definition main_weight (m : mstate) : Z :=
  match m with
  | MWait => 3
  | MClose => 2
  | MFileClose => 1
  | MExited _ => 0
  end.

Definition get_tickets (reqs : list request) : list nat :=
  reqs ≫= (fun q => match q with Head => [] | Get t _ _ => [t] end).

(** Sum of the byte counts of the notifications sent. *)
Definition notified_bytes (s : state) : Z := total snd (notes s).

(** The write [w] stores a byte at position [pos] of the file. *)
Definition covers (w : write) (pos : Z) : Prop :=
  w_off w <= pos < w_off w + Z.of_nat (length (w_data w)).

Section Vocabulary.

Variable chunkSize : Z.
Variable size : Z.

(** What the [k]-th cursor fetch of a run is answered. *)
Definition chunk_at (k : nat) : option (nat * range) :=
  (fun r => (k, r)) <$> (NextChunk chunkSize size (U64.wrap (Z.of_nat k))).2.

(** A bound on the actions left in any schedule of [n] workers. *)
Definition measure (n : nat) (s : state) : Z :=
  4 * (chunks chunkSize size + Z.of_nat n - Z.of_nat (length (fetched s)))
  + total weight (workers s)
  + Z.of_nat (length (status s))
  + main_weight (main_pc s)
  + (if aggregator_done s then 0 else 1).

(** The cursor never runs further than one fetch per chunk and one per
    worker that has returned. *)
Definition bounded (n : nat) (s : state) : Prop :=
  Z.of_nat (length (fetched s)) + total live (workers s)
  <= chunks chunkSize size + Z.of_nat n.

(** The ticket and range of the [k]-th chunk. *)
Definition nth_chunk (k : nat) : nat * range :=
  (k, range_of chunkSize (Z.of_nat k)).

(** What holds of every state a schedule of [n] workers can reach. *)
Record invariant (n : nat) (s : state) : Prop := Invariant {
  inv_workers : length (workers s) = n;
  inv_cursor : partCount s = U64.wrap (Z.of_nat (length (fetched s)));
  inv_fetched :
    fetched s =
    (fun k : nat => U64.wrap (Z.of_nat k)) <$> seq 0 (length (fetched s));
  inv_issued : issued s = omap chunk_at (seq 0 (length (fetched s)));
  inv_tickets :
    (issued s).*1 ≡ₚ (notes s).*1 ++ failed s ++ all_held (workers s);
  inv_succeeded : succeeded s ≡ₚ (notes s).*1 ++ all_sending (workers s);
  inv_requested :
    get_tickets (http s) ⊆+ failed s ++ succeeded s;
  inv_written : sublist (w_ticket <$> file s) (get_tickets (http s));
  inv_file :
    forall w, w ∈ file s ->
      exists r, (w_ticket w, r) ∈ issued s /\ w_off w = U64.to_int (first r);
  inv_gets :
    forall t a b, Get t a b ∈ http s ->
      exists r, (t, r) ∈ issued s /\ a = first r /\ b = last r;
  inv_download :
    forall i t r, workers s !! i = Some (WDownload t r) -> (t, r) ∈ issued s;
  inv_send :
    forall i t v, workers s !! i = Some (WSend t v) ->
      exists r, (t, r) ∈ issued s /\ v = Downloaded r;
  inv_notes :
    forall t v, (t, v) ∈ notes s ->
      exists r, (t, r) ∈ issued s /\ v = Downloaded r;
  inv_count :
    Z.of_nat (length (fetched s)) + total live (workers s)
    + Z.of_nat (length (failed s))
    = Z.of_nat (length (issued s)) + Z.of_nat n;
  inv_wait : main_pc s <> MWait -> forallb is_done (workers s) = true;
  inv_closed :
    status_closed s = true ->
    main_pc s <> MWait /\ main_pc s <> MClose;
  inv_open :
    status_closed s = false -> main_pc s = MWait \/ main_pc s = MClose;
  inv_aggregator : aggregator_done s = true -> status_closed s = true;
  inv_exit : forall code, main_pc s = MExited code -> code = 0
}.

(** Worker 0 claims, downloads and notifies one chunk and the notification
    is received, all other goroutines standing still. *)
Definition solo_round : list event :=
  [EvWorker 0 NewRequestErr; EvWorker 0 (Sent (Resp 206 [] None));
   EvWorker 0 NewRequestErr; EvAggregator].

(** After [k] fetches every worker is at the head of its loop, the channel
    is empty and [main] waits. *)
Definition at_rest (n k : nat) (s : state) : Prop :=
  length (fetched s) = k
  /\ workers s = replicate n WClaim
  /\ status s = []
  /\ main_pc s = MWait
  /\ aggregator_done s = false
  /\ invariant n s.

(** C2 as stated: when no download fails, the notifications of a finished
    run add up to the size. *)
Definition bytes_reported_spec (n : nat) : Prop :=
  forall sched,
    let s := run chunkSize size n sched in
    exited s -> failed s = [] -> notified_bytes s = size.

(** No byte of the range [r] has been written. *)
Definition unwritten (s : state) (r : range) : Prop :=
  forall w pos, w ∈ file s -> first r <= pos <= last r -> ~ covers w pos.

(** C4 as stated, in the part that fails: the range of a failed claim stays
    unwritten. *)
Definition failed_ranges_unwritten (n : nat) : Prop :=
  forall sched,
    let s := run chunkSize size n sched in
    forall t r, (t, r) ∈ issued s -> t ∈ failed s -> unwritten s r.

(** C8 as stated: [n] workers are issued nothing that one worker is not, and
    when both runs finish without a failed download they were issued the
    same ranges. *)
Definition concurrency_invariant (n : nat) : Prop :=
  forall sched,
    let s := run chunkSize size n sched in
    (forall r, r ∈ (issued s).*2 ->
       exists sched1, r ∈ (issued (run chunkSize size 1 sched1)).*2)
    /\ (exited s -> failed s = [] ->
        forall sched1,
          let s1 := run chunkSize size 1 sched1 in
          exited s1 -> failed s1 = [] -> (issued s).*2 ≡ₚ (issued s1).*2).

End Vocabulary.

(** ** Decimal numbers *)

(** The value of a string of decimal digits read after the digits that gave
    [acc]; [None] when a character is not a digit. *)
Fixpoint digits_value (s : string) (acc : Z) : option Z :=
  match s with
  | EmptyString => Some acc
  | String c s' =>
      match digit c with
      | None => None
      | Some d => digits_value s' (acc * 10 + d)
      end
  end.

(** The number a non-empty string of decimal digits denotes. *)
Definition decimal (s : string) : option Z :=
  match s with
  | EmptyString => None
  | _ => digits_value s 0
  end.

(** The digits of [n] put in front of [acc], least significant first, as
    the loop of [strconv]'s formatting does: [u % 10] while [u >= 10], then
    the last digit. *)
Fixpoint format_digits (fuel : nat) (n : Z) (acc : string) : string :=
  match fuel with
  | O => acc
  | S fuel' =>
      let acc' :=
        String (Ascii.ascii_of_nat (48 + Z.to_nat (n mod 10))) acc in
      if n <? 10 then acc' else format_digits fuel' (n / 10) acc'
  end.

(** [%d] of a [uint64]: at most 20 digits. *)
Definition FormatUint (n : Z) : string := format_digits 20 n EmptyString.

(** [fmt.Sprintf("bytes=%d-%d", start, end)], the value of the [Range]
    header of the request [Get t start end]. *)
Definition RangeHeader (start end_ : Z) : string :=
  ("bytes=" +:+ FormatUint start +:+ "-" +:+ FormatUint end_)%string.

(** ** The file and the progress lines *)

(** The byte the write [w] stores at position [pos], if it reaches it. *)
Definition byte_of (w : write) (pos : Z) : option Byte.byte :=
  if w_off w <=? pos then w_data w !! Z.to_nat (pos - w_off w) else None.

(** The byte at position [pos] after the writes of the log, the later write
    winning; [None] where the run has written nothing. *)
Fixpoint file_at (log : list write) (pos : Z) : option Byte.byte :=
  match log with
  | [] => None
  | w :: rest =>
      match file_at rest pos with
      | Some b => Some b
      | None => byte_of w pos
      end
  end.

(** The bytes of [resource] a server that honours the [Range] header sends
    for the range [r]: those from [start] to [end], fewer when the resource
    ends before. *)
Definition slice (resource : list Byte.byte) (r : range) : list Byte.byte :=
  take (Z.to_nat (last r - first r + 1)) (drop (Z.to_nat (first r)) resource).

(** Sum of [int]s as the progress goroutine accumulates them. *)
Definition int_sum (l : list Z) : Z := foldl U64.int_add 0 l.

(** The successive values of [totalDownloaded] when the values of [l] are
    added to [acc] one after the other. *)
Fixpoint running (acc : Z) (l : list Z) : list Z :=
  match l with
  | [] => []
  | v :: l' => U64.int_add acc v :: running (U64.int_add acc v) l'
  end.

(** The totals of the progress lines printed, in order. *)
Definition progress_totals (out : list line) : list Z :=
  out ≫= (fun l => match l with Progress t _ => [t] | _ => [] end).

(** The lines a worker logs before it returns on an error. *)
Definition is_worker_error (l : line) : bool :=
  match l with
  | LogNewRequest => true
  | LogErrorDownloading => true
  | _ => false
  end.

Definition worker_errors (out : list line) : nat :=
  length (filter (fun l => is_worker_error l = true) out).

(** The ranges of the GET requests sent, in order. *)
Definition get_ranges (reqs : list request) : list (Z * Z) :=
  reqs ≫= (fun q => match q with Head => [] | Get _ a b => [(a, b)] end).

(** The notifications sent are those received followed by those still in
    the channel; [totalDownloaded] is the sum of the received ones and the
    progress lines are its successive values. *)
Definition accounted (s : state) : Prop :=
  exists received,
    (notes s).*2 = received ++ status s
    /\ totalDownloaded s = int_sum received
    /\ progress_totals (output s) = running 0 received.

(** [Download complete] is printed when the progress goroutine leaves its
    loop, as the last line, with the channel empty. *)
Definition signalled (s : state) : Prop :=
  (aggregator_done s = false -> DownloadComplete ∉ output s)
  /\ (aggregator_done s = true ->
      status s = []
      /\ exists out,
           output s = out ++ [DownloadComplete] /\ DownloadComplete ∉ out).
(** * Part II: properties *)

(** ** Arithmetic of [uint64] *)

Lemma modulus_eq : U64.modulus = 18446744073709551616.
Proof. reflexivity. Qed.

Lemma half_eq : U64.half = 9223372036854775808.
Proof. reflexivity. Qed.

Lemma wrap_range z : U64.in_range (U64.wrap z).
Proof. unfold U64.in_range, U64.wrap. apply Z.mod_pos_bound. reflexivity. Qed.

Lemma wrap_small z : U64.in_range z -> U64.wrap z = z.
Proof. unfold U64.in_range, U64.wrap. intros H. apply Z.mod_small. exact H. Qed.

Lemma wrap_add_l a b : U64.wrap (U64.wrap a + b) = U64.wrap (a + b).
Proof. unfold U64.wrap. apply Zplus_mod_idemp_l. Qed.

Lemma wrap_sub_l a b : U64.wrap (U64.wrap a - b) = U64.wrap (a - b).
Proof. unfold U64.wrap. apply Zminus_mod_idemp_l. Qed.

Lemma wrap_sub_r a b : U64.wrap (a - U64.wrap b) = U64.wrap (a - b).
Proof. unfold U64.wrap. apply Zminus_mod_idemp_r. Qed.

Lemma wrap_mul_l a b : U64.wrap (U64.wrap a * b) = U64.wrap (a * b).
Proof. unfold U64.wrap. apply Zmult_mod_idemp_l. Qed.

Lemma to_int_small z : 0 <= z < U64.half -> U64.to_int z = z.
Proof.
  intros [_ H]. unfold U64.to_int.
  destruct (Z.ltb_spec z U64.half); [reflexivity | lia].
Qed.

(** The span a worker reports is the chunk size, whatever the index: the
    subtraction undoes the multiplication even when it wrapped. *)
Lemma span_wraps c p :
  U64.add (U64.sub (U64.sub (U64.mul (U64.add p 1) c) 1) (U64.mul p c)) 1
  = U64.wrap c.
Proof.
  unfold U64.add, U64.sub, U64.mul.
  rewrite wrap_add_l.
  set (x := U64.wrap (U64.wrap (p + 1) * c)). set (y := U64.wrap (p * c)).
  replace (U64.wrap (x - 1) - y + 1) with (U64.wrap (x - 1) - (y - 1)) by ring.
  rewrite wrap_sub_l.
  replace (x - 1 - (y - 1)) with (x - y) by ring.
  subst x y. rewrite wrap_sub_l, wrap_sub_r.
  rewrite <- wrap_sub_l, wrap_mul_l, wrap_sub_l.
  f_equal. ring.
Qed.

(** ** The allocator alone *)

Section AllocatorFacts.

Variable chunkSize : Z.
Variable size : Z.
Hypothesis chunkSize_pos : 0 < chunkSize.
Hypothesis size_range : U64.in_range size.

Local Abbreviation n := (chunks chunkSize size).

Lemma chunks_nonneg : 0 <= n.
Proof.
  unfold chunks. destruct size_range as [H0 _].
  apply Z.div_pos; lia.
Qed.

(** [chunks] is the number of multiples of [chunkSize] below [size]. *)
Lemma chunks_spec i : i * chunkSize < size <-> i < n.
Proof.
  unfold chunks.
  pose proof (Z.div_mod (size + chunkSize - 1) chunkSize ltac:(lia)) as E.
  pose proof (Z.mod_pos_bound (size + chunkSize - 1) chunkSize chunkSize_pos) as B.
  set (q := (size + chunkSize - 1) / chunkSize) in *.
  set (m := (size + chunkSize - 1) mod chunkSize) in *.
  split; intros H; nia.
Qed.

Lemma chunks_cover : size <= n * chunkSize.
Proof.
  destruct (Z.le_gt_cases size (n * chunkSize)) as [H|H]; [exact H|].
  apply chunks_spec in H. lia.
Qed.

(** The cursor arithmetic of [k] workers fits as soon as the size and one
    chunk size per worker stay below [2^64]. *)
Lemma fits_small (k : nat) :
  size + Z.of_nat k * chunkSize <= U64.modulus -> fits chunkSize size k.
Proof.
  intros H. unfold fits.
  assert (Hlt : (n - 1) * chunkSize < size) by (apply chunks_spec; lia).
  nia.
Qed.

Lemma NextChunk_cursor p :
  (NextChunk chunkSize size p).1 = U64.wrap (p + 1).
Proof.
  unfold NextChunk, AddUint64. cbn zeta.
  destruct (size <=? _); reflexivity.
Qed.

Lemma NextChunk_wrap p :
  NextChunk chunkSize size (U64.wrap p) = NextChunk chunkSize size p.
Proof.
  unfold NextChunk, AddUint64, U64.add. rewrite wrap_add_l. reflexivity.
Qed.

(** The allocator at an index whose start does not wrap. *)
Lemma NextChunk_fits p :
  0 <= p -> p * chunkSize < U64.modulus ->
  NextChunk chunkSize size p =
    (U64.wrap (p + 1),
     if p <? n then
       Some (Range p (p * chunkSize) (U64.wrap ((p + 1) * chunkSize - 1)))
     else None).
Proof.
  intros Hp Hfit.
  assert (Hpr : U64.in_range p) by (unfold U64.in_range; nia).
  assert (Hpc : U64.in_range (p * chunkSize)) by (unfold U64.in_range; nia).
  unfold NextChunk, AddUint64. cbn zeta.
  assert (E1 : U64.sub (U64.add p 1) 1 = p).
  { unfold U64.sub, U64.add. rewrite wrap_sub_l.
    replace (p + 1 - 1) with p by ring. apply wrap_small, Hpr. }
  rewrite E1.
  assert (E2 : U64.mul p chunkSize = p * chunkSize).
  { unfold U64.mul. apply wrap_small, Hpc. }
  rewrite E2.
  destruct (Z.leb_spec size (p * chunkSize)) as [Hge|Hlt].
  - destruct (Z.ltb_spec p n) as [Hn|Hn]; [|reflexivity].
    apply chunks_spec in Hn. lia.
  - destruct (Z.ltb_spec p n) as [Hn|Hn].
    + do 3 f_equal. unfold U64.sub, U64.mul, U64.add.
      rewrite wrap_mul_l, wrap_sub_l. reflexivity.
    + apply chunks_spec in Hlt. lia.
Qed.

Lemma drain_S fuel p :
  drain chunkSize size (S fuel) p =
    match NextChunk chunkSize size p with
    | (_, None) => Some []
    | (cursor', Some r) => cons r <$> drain chunkSize size fuel cursor'
    end.
Proof. reflexivity. Qed.

(** When a lone drain ends, the index after the last range it issued is one
    the allocator refuses. *)
Lemma drain_stops fuel p l :
  drain chunkSize size fuel p = Some l ->
  (NextChunk chunkSize size (U64.wrap (p + Z.of_nat (length l)))).2 = None.
Proof.
  revert p l. induction fuel as [|fuel IH]; intros p l; [discriminate|].
  cbn [drain].
  pose proof (NextChunk_cursor p) as Hc.
  destruct (NextChunk chunkSize size p) as [c' [r|]] eqn:E; cbn in Hc.
  - destruct (drain chunkSize size fuel c') as [l'|] eqn:D; [|discriminate].
    cbn. intros [= <-]. apply IH in D. subst c'.
    rewrite wrap_add_l in D. cbn [length].
    replace (p + Z.of_nat (S (length l'))) with (p + 1 + Z.of_nat (length l'))
      by lia.
    exact D.
  - intros [= <-]. cbn [length]. rewrite Z.add_0_r, NextChunk_wrap, E.
    reflexivity.
Qed.

Section NoWrap.

Hypothesis fits1 : fits chunkSize size 1.

Lemma fits1_bound : n * chunkSize < U64.modulus.
Proof. unfold fits in fits1. rewrite Z.add_simpl_r in fits1. exact fits1. Qed.

Lemma drain_from (m k : nat) :
  (k + m)%nat = Z.to_nat n ->
  drain chunkSize size (S m) (Z.of_nat k) =
    Some ((fun i : nat => range_of chunkSize (Z.of_nat i)) <$> seq k m).
Proof.
  pose proof chunks_nonneg as Hn. pose proof fits1_bound as Hb.
  revert k. induction m as [|m IH]; intros k Hk.
  - rewrite drain_S, NextChunk_fits by nia.
    destruct (Z.ltb_spec (Z.of_nat k) n); [lia|reflexivity].
  - rewrite drain_S, NextChunk_fits by nia.
    destruct (Z.ltb_spec (Z.of_nat k) n); [|lia].
    replace (Z.of_nat k + 1) with (Z.of_nat (S k)) by lia.
    rewrite (wrap_small (Z.of_nat (S k))) by (unfold U64.in_range; nia).
    rewrite (wrap_small (Z.of_nat (S k) * chunkSize - 1))
      by (unfold U64.in_range; nia).
    rewrite IH by lia. cbn. do 2 f_equal.
    unfold range_of. f_equal. f_equal. f_equal. lia.
Qed.

Lemma expected_lookup (i : nat) r :
  expected_ranges chunkSize size !! i = Some r ->
  r = range_of chunkSize (Z.of_nat i) /\ Z.of_nat i < n.
Proof.
  unfold expected_ranges. rewrite list_lookup_fmap.
  destruct (seq 0 (Z.to_nat n) !! i) as [j|] eqn:E; [|discriminate].
  apply lookup_seq in E as [-> Hlt]. cbn. intros [= <-].
  split; [reflexivity | lia].
Qed.

End NoWrap.

End AllocatorFacts.

(** C1, as amended: for a size in [uint64] range and a positive chunk size
    whose multiples up to [ceil(size/chunkSize) * chunkSize] stay below
    [2^64], a lone worker asking the allocator until it answers no more work
    is issued the indices [0 .. ceil(size/chunkSize) - 1] in order, index [i]
    with start [i * chunkSize] and end [(i+1) * chunkSize - 1]; the ranges are
    pairwise disjoint, cover [0, size), and only the last may pass
    [size - 1]. *)
Theorem C1_allocator_sequence (chunkSize size : Z) :
  0 < chunkSize -> U64.in_range size -> fits chunkSize size 1 ->
  allocator_spec chunkSize size.
Proof.
  intros Hc Hs Hf.
  pose proof (chunks_nonneg chunkSize size Hc Hs) as Hn.
  exists (S (Z.to_nat (chunks chunkSize size))), (expected_ranges chunkSize size).
  split; [|split; [reflexivity|split; [|split; [|split]]]].
  - apply (drain_from chunkSize size Hc Hs Hf _ 0%nat). lia.
  - intros r Hr. apply list_elem_of_lookup in Hr as [i Hi].
    apply (expected_lookup chunkSize size) in Hi as [-> _]. cbn. nia.
  - intros i j r1 r2 H1 H2 Hij.
    apply (expected_lookup chunkSize size) in H1 as [-> _].
    apply (expected_lookup chunkSize size) in H2 as [-> _].
    unfold disjoint_ranges. cbn.
    destruct (Nat.lt_total i j) as [H|[H|H]]; [left; nia | lia | right; nia].
  - intros b Hb.
    pose proof (Z.div_mod b chunkSize ltac:(lia)) as E.
    pose proof (Z.mod_pos_bound b chunkSize Hc) as B.
    assert (Hq0 : 0 <= b / chunkSize) by (apply Z.div_pos; lia).
    assert (Hq : b / chunkSize < chunks chunkSize size).
    { apply (chunks_spec chunkSize size Hc). nia. }
    exists (range_of chunkSize (b / chunkSize)). split.
    + unfold expected_ranges. apply list_elem_of_fmap.
      exists (Z.to_nat (b / chunkSize)). split.
      * f_equal. lia.
      * apply elem_of_seq. lia.
    + cbn. nia.
  - intros i r Hi Hlen.
    apply (expected_lookup chunkSize size) in Hi as [-> Hi].
    unfold expected_ranges in Hlen. rewrite length_fmap, length_seq in Hlen.
    cbn.
    assert (H : (Z.of_nat i + 1) * chunkSize < size).
    { apply (chunks_spec chunkSize size Hc). lia. }
    lia.
Qed.

Lemma C1_allocator_sequence_witness :
  (0 < 10 /\ U64.in_range 25 /\ fits 10 25 1) /\ allocator_spec 10 25.
Proof.
  assert (H1 : 0 < 10) by lia.
  assert (H2 : U64.in_range 25) by (unfold U64.in_range; vm_compute; split; [discriminate | reflexivity]).
  assert (H3 : fits 10 25 1) by (vm_compute; reflexivity).
  split; [auto | exact (C1_allocator_sequence 10 25 H1 H2 H3)].
Defined.

(** C1, as stated, fails for the program's chunk size at a size a server can
    announce: with [size = 2^64 - 1] the index after the last expected one
    has a start that wrapped below [size], so the allocator issues it instead
    of answering no more work. *)
Lemma C1_counterexample : ~ allocator_spec chunkSize (2 ^ 64 - 1).
Proof.
  intros (fuel & l & Hd & -> & _).
  apply drain_stops in Hd.
  unfold expected_ranges in Hd. rewrite length_fmap, length_seq in Hd.
  rewrite Z2Nat.id in Hd by (vm_compute; discriminate).
  revert Hd. vm_compute. discriminate.
Qed.

(** The scenarios of the specification: 25 bytes in chunks of 10, 10 bytes
    in chunks of 10, and an empty resource. *)
Example drain_25_by_10 :
  drain 10 25 4 0 = Some [Range 0 0 9; Range 1 10 19; Range 2 20 29].
Proof. reflexivity. Qed.

Example drain_10_by_10 : drain 10 10 2 0 = Some [Range 0 0 9].
Proof. reflexivity. Qed.

Example drain_empty : drain 10 0 1 0 = Some [].
Proof. reflexivity. Qed.

(** Near [2^64] the products wrap: the second range ends before it starts
    and the allocator keeps issuing. *)
Example drain_wraps :
  drain (2 ^ 63 + 1) (2 ^ 64 - 1) 3 0 = None
  /\ (NextChunk (2 ^ 63 + 1) (2 ^ 64 - 1) 1).2
     = Some (Range 1 (2 ^ 63 + 1) 1).
Proof. split; reflexivity. Qed.

(** ** Lists of goroutines *)

Lemma total_cons {A} (f : A -> Z) a l : total f (a :: l) = f a + total f l.
Proof. reflexivity. Qed.

Lemma total_app {A} (f : A -> Z) l1 l2 :
  total f (l1 ++ l2) = total f l1 + total f l2.
Proof.
  induction l1 as [|a l1 IH]; [reflexivity|].
  rewrite <- app_comm_cons, !total_cons, IH. ring.
Qed.

Lemma total_insert {A} (f : A -> Z) l (i : nat) a b :
  l !! i = Some a -> total f (<[i := b]> l) = total f l - f a + f b.
Proof.
  revert i. induction l as [|x l IH]; intros [|i] H; try discriminate.
  - injection H as ->. change (<[0%nat := b]> (a :: l)) with (b :: l).
    rewrite !total_cons. ring.
  - change (<[S i := b]> (x :: l)) with (x :: <[i := b]> l).
    rewrite !total_cons, (IH i H). ring.
Qed.

Lemma total_const {A} (f : A -> Z) l c :
  (forall a, a ∈ l -> f a = c) -> total f l = Z.of_nat (length l) * c.
Proof.
  induction l as [|x l IH]; intros H; [reflexivity|].
  rewrite total_cons, IH, (H x).
  - cbn [length]. lia.
  - apply list_elem_of_here.
  - intros a Ha. apply H, list_elem_of_further, Ha.
Qed.

Lemma total_live_bounds ws : 0 <= total live ws <= Z.of_nat (length ws).
Proof.
  induction ws as [|w ws IH]; [cbn; lia|].
  rewrite total_cons. cbn [length].
  assert (0 <= live w <= 1) by (destruct w; cbn; lia). lia.
Qed.

Lemma total_live_done ws : forallb is_done ws = true -> total live ws = 0.
Proof.
  induction ws as [|w ws IH]; [reflexivity|].
  cbn [forallb]. intros [H1 H2]%andb_prop. rewrite total_cons, IH by exact H2.
  destruct w; try discriminate. reflexivity.
Qed.

Lemma total_weight_nonneg ws : 0 <= total weight ws.
Proof.
  induction ws as [|w ws IH]; [cbn; lia|].
  rewrite total_cons. destruct w; cbn [weight]; lia.
Qed.

Lemma forallb_is_done_lookup ws (i : nat) w :
  forallb is_done ws = true -> ws !! i = Some w -> w = WDone.
Proof.
  intros H Hi. rewrite forallb_forall in H.
  apply list_elem_of_lookup_2, list_elem_of_In, H in Hi.
  destruct w; [discriminate.. | reflexivity].
Qed.

Lemma not_all_done ws :
  forallb is_done ws = false ->
  exists (i : nat) w, ws !! i = Some w /\ w <> WDone.
Proof.
  induction ws as [|w ws IH]; cbn; [discriminate|].
  destruct w; cbn.
  - intros _. exists 0%nat, WClaim. split; [reflexivity | discriminate].
  - intros _. exists 0%nat, (WDownload t r). split; [reflexivity | discriminate].
  - intros _. exists 0%nat, (WSend t n). split; [reflexivity | discriminate].
  - intros H. destruct (IH H) as (i & w & Hi & Hw).
    exists (S i), w. split; assumption.
Qed.

(** Replacing one goroutine changes what is collected from the list by what
    is collected from that goroutine. *)
Lemma bind_insert {B} (f : wstate -> list B) ws (i : nat) w w' :
  ws !! i = Some w ->
  (<[i := w']> ws ≫= f) ++ f w ≡ₚ (ws ≫= f) ++ f w'.
Proof.
  revert i. induction ws as [|x ws IH]; intros [|i] H; try discriminate.
  - injection H as ->. cbn.
    rewrite <- !app_assoc.
    rewrite (Permutation_app_comm (ws ≫= f) (f w)).
    rewrite (Permutation_app_comm (ws ≫= f) (f w')).
    rewrite !app_assoc. apply Permutation_app_tail, Permutation_app_comm.
  - cbn in H |- *. rewrite <- !app_assoc. rewrite (IH i H). reflexivity.
Qed.

Lemma bind_insert_same {B} (f : wstate -> list B) ws (i : nat) w w' :
  ws !! i = Some w -> f w = f w' -> <[i := w']> ws ≫= f = ws ≫= f.
Proof.
  revert i. induction ws as [|x ws IH]; intros [|i] H E; try discriminate.
  - injection H as ->. change (<[0%nat := w']> (w :: ws)) with (w' :: ws).
    rewrite !bind_cons, E. reflexivity.
  - change (<[S i := w']> (x :: ws)) with (x :: <[i := w']> ws).
    rewrite !bind_cons, (IH i H E). reflexivity.
Qed.

Lemma bind_insert_gain {B} (f : wstate -> list B) ws (i : nat) w w' t :
  ws !! i = Some w -> f w = [] -> f w' = [t] ->
  <[i := w']> ws ≫= f ≡ₚ t :: (ws ≫= f).
Proof.
  intros H E E'. pose proof (bind_insert f ws i w w' H) as P.
  rewrite E, E', app_nil_r in P. rewrite P.
  symmetry. apply Permutation_cons_append.
Qed.

Lemma bind_insert_lose {B} (f : wstate -> list B) ws (i : nat) w w' t :
  ws !! i = Some w -> f w = [t] -> f w' = [] ->
  ws ≫= f ≡ₚ t :: (<[i := w']> ws ≫= f).
Proof.
  intros H E E'. pose proof (bind_insert f ws i w w' H) as P.
  rewrite E, E', app_nil_r in P. rewrite <- P.
  symmetry. apply Permutation_cons_append.
Qed.

Lemma bind_all_done {B} (f : wstate -> list B) ws :
  f WDone = [] -> forallb is_done ws = true -> ws ≫= f = [].
Proof.
  intros E. induction ws as [|w ws IH]; cbn; [reflexivity|].
  intros [H1 H2]%andb_prop. destruct w; try discriminate.
  rewrite E, IH by exact H2. reflexivity.
Qed.

Lemma seq_snoc (n : nat) : seq 0 (S n) = seq 0 n ++ [n].
Proof. rewrite seq_S. reflexivity. Qed.

Lemma omap_snoc {A B} (f : A -> option B) l a :
  omap f (l ++ [a]) = omap f l ++ match f a with Some b => [b] | None => [] end.
Proof. rewrite omap_app. cbn. destruct (f a); reflexivity. Qed.

(** ** Every step is a transition or nothing *)

Section Steps.

Variable chunkSize : Z.
Variable size : Z.





Lemma step_trans s ev :
  step chunkSize size s ev = s \/ trans chunkSize size s (step chunkSize size s ev).
Proof.
  unfold step.
  destruct (main_pc s) eqn:Hm; [| | |left; reflexivity];
    (destruct ev as [i r| |];
     [ unfold worker_step;
       destruct (workers s !! i) as [[|t rg|t n|]|] eqn:Hw;
       [ destruct (NextChunk chunkSize size (partCount s)) as [c' [rg|]] eqn:HN;
         right; econstructor; eassumption
       | destruct r as [|a];
         [ right; econstructor; eassumption
         | destruct (Download a) as [[data [|]] lines] eqn:HD;
           right; econstructor; eassumption ]
       | destruct (Nat.ltb_spec (length (status s)) status_cap);
         [ right; econstructor; eassumption | left; reflexivity ]
       | left; reflexivity
       | left; reflexivity ]
     | unfold aggregator_step;
       destruct (aggregator_done s) eqn:Ha; [left; reflexivity|];
       destruct (status s) as [|n rest] eqn:Hs;
       [ destruct (status_closed s) eqn:Hc;
         [ right; econstructor; eassumption | left; reflexivity ]
       | right; econstructor; eassumption ]
     | unfold main_step; rewrite Hm;
       try (destruct (forallb is_done (workers s)) eqn:Hd;
            [|left; reflexivity]);
       right; econstructor; eassumption ]).
Qed.

Lemma exec_snoc s sched ev :
  exec chunkSize size s (sched ++ [ev])
  = step chunkSize size (exec chunkSize size s sched) ev.
Proof. unfold exec. rewrite foldl_app. reflexivity. Qed.

Lemma exec_app s l1 l2 :
  exec chunkSize size s (l1 ++ l2)
  = exec chunkSize size (exec chunkSize size s l1) l2.
Proof. unfold exec. apply foldl_app. Qed.

Lemma exec_cons s ev l :
  exec chunkSize size s (ev :: l)
  = exec chunkSize size (step chunkSize size s ev) l.
Proof. reflexivity. Qed.

(** A property kept by every transition holds along every schedule. *)
Lemma exec_ind (P : state -> Prop) s :
  P s -> (forall s1 s2, P s1 -> trans chunkSize size s1 s2 -> P s2) ->
  forall sched, P (exec chunkSize size s sched).
Proof.
  intros H0 Hstep sched. induction sched as [|ev sched IH] using rev_ind.
  - exact H0.
  - rewrite exec_snoc. destruct (step_trans (exec chunkSize size s sched) ev) as [->|T].
    + exact IH.
    + exact (Hstep _ _ IH T).
Qed.

End Steps.

(** ** The invariant *)

Ltac state_simpl :=
  cbn [partCount workers status status_closed totalDownloaded aggregator_done
       main_pc file fetched issued http succeeded failed notes output
       set_partCount set_worker set_status set_status_closed
       set_totalDownloaded set_aggregator_done set_main_pc log_file
       log_fetched log_issued log_http log_succeeded log_failed log_note
       log_output] in *.

Lemma lookup_insert_cases (ws : list wstate) (i j : nat) w x :
  <[i := w]> ws !! j = Some x -> x = w \/ ws !! j = Some x.
Proof.
  intros [(_ & -> & _)|(_ & H)]%list_lookup_insert_Some; [left | right]; auto.
Qed.

Lemma get_tickets_snoc reqs t a b :
  get_tickets (reqs ++ [Get t a b]) = get_tickets reqs ++ [t].
Proof. unfold get_tickets. rewrite bind_app. reflexivity. Qed.

(** [Download] writes at most one payload. *)
Lemma Download_data a data err lines :
  Download a = (data, err, lines) -> data = [] \/ exists d, data = [d].
Proof.
  destruct a as [|code body cut]; cbn.
  - intros [= <- _ _]. left. reflexivity.
  - destruct (Copy body cut) as [d e]. intros [= <- _ _]. right. eauto.
Qed.

Section Invariant.

Variable chunkSize : Z.
Variable size : Z.
Variable n : nat.





Lemma cursor_next p k cursor' res :
  p = U64.wrap (Z.of_nat k) ->
  NextChunk chunkSize size p = (cursor', res) ->
  cursor' = U64.wrap (Z.of_nat (S k)).
Proof.
  intros -> H. pose proof (NextChunk_cursor chunkSize size (U64.wrap (Z.of_nat k))) as E.
  rewrite H in E. cbn in E. rewrite E, wrap_add_l. f_equal. lia.
Qed.

Lemma chunk_at_fetch p k cursor' res :
  p = U64.wrap (Z.of_nat k) ->
  NextChunk chunkSize size p = (cursor', res) ->
  chunk_at chunkSize size k = (fun r => (k, r)) <$> res.
Proof. intros -> H. unfold chunk_at. rewrite H. reflexivity. Qed.

Lemma invariant_init lines reqs :
  get_tickets reqs = [] -> invariant chunkSize size n (init n lines reqs).
Proof.
  intros Hreqs. constructor; unfold init; state_simpl;
    try reflexivity; try discriminate; try (intros; exfalso; set_solver).
  - apply length_replicate.
  - unfold all_held. induction n as [|k IH]; [reflexivity | exact IH].
  - unfold all_sending. induction n as [|k IH]; [reflexivity | exact IH].
  - rewrite Hreqs. apply submseteq_nil_l.
  - rewrite Hreqs. apply sublist_nil_l.
  - intros t a b H. exfalso.
    assert (t ∈ get_tickets reqs) as Ht; [|rewrite Hreqs in Ht; set_solver].
    unfold get_tickets. apply list_elem_of_bind. exists (Get t a b).
    split; [set_solver | exact H].
  - intros i t r [H _]%lookup_replicate. discriminate.
  - intros i t v [H _]%lookup_replicate. discriminate.
  - cbn [length]. rewrite (total_const live _ 1), length_replicate; [lia|].
    intros a [-> _]%elem_of_replicate. reflexivity.
  - intros _. left. reflexivity.
Qed.


Local Ltac len_snoc := rewrite ?length_app; cbn [length]; rewrite ?Nat.add_1_r.

(** Goals about the goroutine replaced by a transition. *)
Local Ltac by_lookup IH :=
  let j := fresh "j" in let E := fresh "E" in let Hj := fresh "Hj" in
  intros j ? ? Hj; apply lookup_insert_cases in Hj as [E|Hj];
  [ try discriminate E
  | first [ apply elem_of_app; left; exact (IH _ _ _ Hj)
          | exact (IH _ _ _ Hj)
          | destruct (IH _ _ _ Hj) as (? & ? & ?); eexists; split;
            [apply elem_of_app; left; eassumption | assumption]
          | destruct (IH _ _ _ Hj) as (? & ? & ?); eexists; split;
            eassumption ] ].

(** Goals about a log that a transition did not touch while [issued]
    grew. *)
Local Ltac by_growth IH :=
  intros; edestruct IH as (? & ? & ?); [eassumption|];
  eexists; split; [apply elem_of_app; left; eassumption | assumption].

Local Ltac by_wait Hwait H :=
  let Hm := fresh "Hm" in
  intros Hm; pose proof (forallb_is_done_lookup _ _ _ (Hwait Hm) H);
  discriminate.

Lemma invariant_trans s s' :
  invariant chunkSize size n s -> trans chunkSize size s s' ->
  invariant chunkSize size n s'.
Proof.
  intros [Hw Hc Hf Hi Ht Hs Hr Hwr Hfile Hg Hd Hsd Hn Hcnt Hwait Hcl Hop Hag
            Hex] T.
  destruct T as [i c' H HN|i c' rg H HN|i t rg H|i t rg a data lines H HD
                |i t rg a data lines H HD|i t v H Hlen|v rest Ha Hst
                |Ha Hst Hclosed|Hm Hall|Hm|Hm].
  - (* the allocator is exhausted *)
    constructor; state_simpl; try assumption.
    + rewrite length_insert. exact Hw.
    + len_snoc. eapply cursor_next; eassumption.
    + len_snoc. rewrite seq_snoc, fmap_app. f_equal; [exact Hf|].
      cbn. rewrite Hc. reflexivity.
    + len_snoc. rewrite seq_snoc, omap_snoc, (chunk_at_fetch _ _ _ _ Hc HN).
      cbn. rewrite app_nil_r. exact Hi.
    + unfold all_held. rewrite (bind_insert_same held _ _ _ _ H) by reflexivity.
      exact Ht.
    + unfold all_sending.
      rewrite (bind_insert_same sending _ _ _ _ H) by reflexivity. exact Hs.
    + by_lookup Hd.
    + by_lookup Hsd.
    + len_snoc. rewrite (total_insert live _ _ _ _ H). cbn [live is_done]. lia.
    + by_wait Hwait H.
  - (* a range is claimed *)
    constructor; state_simpl; try assumption.
    + rewrite length_insert. exact Hw.
    + len_snoc. eapply cursor_next; eassumption.
    + len_snoc. rewrite seq_snoc, fmap_app. f_equal; [exact Hf|].
      cbn. rewrite Hc. reflexivity.
    + len_snoc. rewrite seq_snoc, omap_snoc, (chunk_at_fetch _ _ _ _ Hc HN).
      cbn. rewrite Hi. reflexivity.
    + unfold all_held in *.
      rewrite (bind_insert_gain held _ _ _ _ (length (fetched s)) H)
        by reflexivity.
      rewrite fmap_app, Ht. cbn. solve_Permutation.
    + unfold all_sending.
      rewrite (bind_insert_same sending _ _ _ _ H) by reflexivity. exact Hs.
    + by_growth Hfile.
    + intros t a b Hin. destruct (Hg t a b Hin) as (r & Hin' & E).
      exists r. split; [apply elem_of_app; left; exact Hin' | exact E].
    + intros j t r Hj. apply lookup_insert_cases in Hj as [E|Hj].
      * injection E as -> ->. apply elem_of_app. right. apply list_elem_of_here.
      * apply elem_of_app. left. exact (Hd _ _ _ Hj).
    + by_lookup Hsd.
    + by_growth Hn.
    + len_snoc. rewrite (total_insert live _ _ _ _ H). cbn [live is_done]. lia.
    + by_wait Hwait H.
  - (* http.NewRequest fails *)
    constructor; state_simpl; try assumption.
    + rewrite length_insert. exact Hw.
    + unfold all_held in *.
      rewrite Ht, (bind_insert_lose held _ _ _ WDone t H) by reflexivity.
      solve_Permutation.
    + unfold all_sending.
      rewrite (bind_insert_same sending _ _ _ _ H) by reflexivity. exact Hs.
    + etransitivity; [exact Hr|]. solve_submseteq.
    + by_lookup Hd.
    + by_lookup Hsd.
    + len_snoc. rewrite (total_insert live _ _ _ _ H). cbn [live is_done]. lia.
    + by_wait Hwait H.
  - (* Download returns an error *)
    constructor; state_simpl; try assumption.
    + rewrite length_insert. exact Hw.
    + unfold all_held in *.
      rewrite Ht, (bind_insert_lose held _ _ _ WDone t H) by reflexivity.
      solve_Permutation.
    + unfold all_sending.
      rewrite (bind_insert_same sending _ _ _ _ H) by reflexivity. exact Hs.
    + rewrite get_tickets_snoc.
      transitivity ((failed s ++ succeeded s) ++ [t]);
        [apply submseteq_skips_r, Hr | solve_submseteq].
    + rewrite get_tickets_snoc, fmap_app. apply sublist_app; [exact Hwr|].
      destruct (Download_data _ _ _ _ HD) as [->|[d ->]];
        [apply sublist_nil_l | reflexivity].
    + intros w [Hin|Hin]%elem_of_app; [exact (Hfile w Hin)|].
      apply list_elem_of_fmap in Hin as (d & -> & _).
      exists rg. split; [exact (Hd _ _ _ H) | reflexivity].
    + intros t' a' b' [Hin|Hin]%elem_of_app; [exact (Hg _ _ _ Hin)|].
      apply list_elem_of_singleton in Hin. injection Hin as -> -> ->.
      exists rg. split; [exact (Hd _ _ _ H) | split; reflexivity].
    + by_lookup Hd.
    + by_lookup Hsd.
    + len_snoc. rewrite (total_insert live _ _ _ _ H). cbn [live is_done]. lia.
    + by_wait Hwait H.
  - (* Download returns nil *)
    constructor; state_simpl; try assumption.
    + rewrite length_insert. exact Hw.
    + unfold all_held in *.
      rewrite (bind_insert_same held _ _ _ _ H) by reflexivity. exact Ht.
    + unfold all_sending in *.
      rewrite (bind_insert_gain sending _ _ _ _ t H) by reflexivity.
      rewrite Hs. solve_Permutation.
    + rewrite get_tickets_snoc.
      transitivity ((failed s ++ succeeded s) ++ [t]);
        [apply submseteq_skips_r, Hr | solve_submseteq].
    + rewrite get_tickets_snoc, fmap_app. apply sublist_app; [exact Hwr|].
      destruct (Download_data _ _ _ _ HD) as [->|[d ->]];
        [apply sublist_nil_l | reflexivity].
    + intros w [Hin|Hin]%elem_of_app; [exact (Hfile w Hin)|].
      apply list_elem_of_fmap in Hin as (d & -> & _).
      exists rg. split; [exact (Hd _ _ _ H) | reflexivity].
    + intros t' a' b' [Hin|Hin]%elem_of_app; [exact (Hg _ _ _ Hin)|].
      apply list_elem_of_singleton in Hin. injection Hin as -> -> ->.
      exists rg. split; [exact (Hd _ _ _ H) | split; reflexivity].
    + by_lookup Hd.
    + intros j t' v' Hj. apply lookup_insert_cases in Hj as [E|Hj].
      * injection E as -> ->. exists rg. split; [exact (Hd _ _ _ H) | reflexivity].
      * exact (Hsd _ _ _ Hj).
    + rewrite (total_insert live _ _ _ _ H). cbn [live is_done]. lia.
    + by_wait Hwait H.
  - (* a notification is sent *)
    constructor; state_simpl; try assumption.
    + rewrite length_insert. exact Hw.
    + unfold all_held in *.
      rewrite Ht, (bind_insert_lose held _ _ _ WClaim t H) by reflexivity.
      rewrite fmap_app. cbn. solve_Permutation.
    + unfold all_sending in *.
      rewrite Hs, (bind_insert_lose sending _ _ _ WClaim t H) by reflexivity.
      rewrite fmap_app. cbn. solve_Permutation.
    + by_lookup Hd.
    + by_lookup Hsd.
    + intros t' v' [Hin|Hin]%elem_of_app; [exact (Hn _ _ Hin)|].
      apply list_elem_of_singleton in Hin. injection Hin as -> ->.
      exact (Hsd _ _ _ H).
    + rewrite (total_insert live _ _ _ _ H). cbn [live is_done]. lia.
    + by_wait Hwait H.
  - (* a notification is received *)
    constructor; state_simpl; assumption.
  - (* the progress goroutine leaves its loop *)
    constructor; state_simpl; try assumption.
    intros _. exact Hclosed.
  - (* wg.Wait returns *)
    constructor; state_simpl; try assumption.
    + intros _. exact Hall.
    + intros Hc'. destruct (Hcl Hc') as [Hc1 _]. contradiction.
    + intros _. right. reflexivity.
    + discriminate.
  - (* close(status) *)
    constructor; state_simpl; try assumption.
    + intros _. apply Hwait. rewrite Hm. discriminate.
    + intros _. split; discriminate.
    + discriminate.
    + intros _. reflexivity.
    + discriminate.
  - (* main returns *)
    constructor; state_simpl; try assumption.
    + intros _. apply Hwait. rewrite Hm. discriminate.
    + intros _. split; discriminate.
    + intros Hc'. destruct (Hop Hc') as [E|E]; rewrite Hm in E; discriminate.
    + intros code [= <-]. reflexivity.
Qed.

(** The invariant holds along every schedule. *)
Lemma invariant_run sched : invariant chunkSize size n (run chunkSize size n sched).
Proof.
  unfold run. apply exec_ind.
  - apply invariant_init. reflexivity.
  - intros s1 s2. apply invariant_trans.
Qed.

End Invariant.

(** ** Claims, downloads and notifications *)

Section Notifications.

Variable chunkSize : Z.
Variable size : Z.
Variable n : nat.

Lemma step_live s ev :
  (forall code, main_pc s <> MExited code) ->
  step chunkSize size s ev =
    match ev with
    | EvWorker i r => worker_step chunkSize size i r s
    | EvAggregator => aggregator_step size s
    | EvMain => main_step s
    end.
Proof.
  intros H. unfold step. destruct (main_pc s) as [| | |code]; try reflexivity.
  destruct (H code eq_refl).
Qed.

Lemma step_exited s ev : exited s -> step chunkSize size s ev = s.
Proof. intros [code H]. unfold step. rewrite H. reflexivity. Qed.

Lemma exec_exited s sched : exited s -> exec chunkSize size s sched = s.
Proof.
  intros H. induction sched as [|ev sched IH]; [reflexivity|].
  rewrite exec_cons, step_exited by exact H. exact IH.
Qed.

(** While a goroutine has not returned, [main] is in [wg.Wait()]. *)
Lemma waiting s (i : nat) w :
  invariant chunkSize size n s -> workers s !! i = Some w -> w <> WDone ->
  main_pc s = MWait.
Proof.
  intros I Hi Hw. destruct (main_pc s) eqn:Hm; [reflexivity|..];
    exfalso; apply Hw;
    apply (forallb_is_done_lookup (workers s) i); [|exact Hi| |exact Hi| |exact Hi];
    apply (inv_wait _ _ _ _ I); rewrite Hm; discriminate.
Qed.

Lemma exited_all_done s :
  invariant chunkSize size n s -> exited s ->
  forallb is_done (workers s) = true.
Proof.
  intros I [code Hm]. apply (inv_wait _ _ _ _ I). rewrite Hm. discriminate.
Qed.

(** Tickets are handed out once. *)
Lemma chunk_at_tickets (l : list nat) :
  sublist (omap (chunk_at chunkSize size) l).*1 l.
Proof.
  induction l as [|k l IH]; [constructor|].
  cbn [omap list_omap]. unfold chunk_at at 1.
  destruct (NextChunk chunkSize size (U64.wrap (Z.of_nat k))).2; cbn.
  - apply sublist_skip, IH.
  - apply sublist_cons, IH.
Qed.

Lemma issued_NoDup s :
  invariant chunkSize size n s -> NoDup ((issued s).*1).
Proof.
  intros I. rewrite (inv_issued _ _ _ _ I).
  eapply sublist_NoDup; [apply NoDup_seq | apply chunk_at_tickets].
Qed.

Lemma tickets_NoDup s :
  invariant chunkSize size n s ->
  NoDup ((notes s).*1 ++ failed s ++ all_held (workers s)).
Proof.
  intros I. rewrite <- (inv_tickets _ _ _ _ I). apply issued_NoDup, I.
Qed.

(** An issued range is the one the allocator derives for its index. *)
Lemma issued_shape s t r :
  invariant chunkSize size n s -> (t, r) ∈ issued s ->
  (t < length (fetched s))%nat /\
  exists p,
    r = Range p (U64.mul p chunkSize)
          (U64.sub (U64.mul (U64.add p 1) chunkSize) 1).
Proof.
  intros I. rewrite (inv_issued _ _ _ _ I).
  intros (k & Hk & Hat)%list_elem_of_omap.
  apply elem_of_seq in Hk. unfold chunk_at in Hat.
  unfold NextChunk, AddUint64 in Hat. cbn zeta in Hat.
  destruct (size <=? _) in Hat; [discriminate|].
  cbn in Hat. injection Hat as <- <-. split; [lia|]. eauto.
Qed.

Lemma issued_Downloaded s t r :
  invariant chunkSize size n s -> (t, r) ∈ issued s ->
  Downloaded r = U64.to_int (U64.wrap chunkSize).
Proof.
  intros I H. destruct (issued_shape _ _ _ I H) as (_ & p & ->).
  unfold Downloaded. cbn [first last]. rewrite span_wraps. reflexivity.
Qed.

Lemma succeeded_not_failed s t :
  invariant chunkSize size n s -> t ∈ succeeded s -> t ∉ failed s.
Proof.
  intros I Hs Hf. pose proof (tickets_NoDup _ I) as ND.
  rewrite (inv_succeeded _ _ _ _ I) in Hs.
  apply NoDup_app in ND as (_ & Hdisj & ND).
  apply NoDup_app in ND as (_ & Hdisj' & _).
  apply elem_of_app in Hs as [Hs|Hs].
  - apply (Hdisj t Hs). apply elem_of_app. left. exact Hf.
  - apply (Hdisj' t Hf). unfold all_held, all_sending in *.
    apply list_elem_of_bind in Hs as (w & Hw & Hin).
    apply list_elem_of_bind. exists w. split; [|exact Hin].
    destruct w; cbn in *; set_solver.
Qed.

(** After its download a worker either still has the notification to send
    or has sent it. *)
Lemma pending_or_notified s (i : nat) t v sched :
  workers s !! i = Some (WSend t v) ->
  workers (exec chunkSize size s sched) !! i = Some (WSend t v)
  \/ (t, v) ∈ notes (exec chunkSize size s sched).
Proof.
  intros H. induction sched as [|ev sched IH] using rev_ind; [left; exact H|].
  rewrite exec_snoc.
  destruct (step_trans chunkSize size (exec chunkSize size s sched) ev)
    as [->|T]; [exact IH|].
  set (s1 := exec chunkSize size s sched) in *. clearbody s1.
  destruct IH as [IH|IH].
  - destruct T; state_simpl; try (left; exact IH);
      try (destruct (decide (i0 = i)) as [->|Hne];
           [ rewrite IH in *; simplify_eq
           | left; rewrite list_lookup_insert_ne by exact Hne; exact IH ]).
    right. apply elem_of_app. right. apply list_elem_of_here.
  - right. destruct T; state_simpl; try exact IH.
    apply elem_of_app. left. exact IH.
Qed.

End Notifications.

(** C3: in every schedule, a notification belongs to a claim whose download
    returned without error and carries [int(end - start + 1)] of its range;
    no claim is notified twice, none that failed is notified; and once the
    process has exited every claim has either failed or been notified, the
    notified ones being exactly those whose download succeeded. *)
Theorem C3_notification_iff_success (chunkSize size : Z) (n : nat)
    (sched : list event) :
  let s := run chunkSize size n sched in
  (forall t v, (t, v) ∈ notes s ->
     t ∈ succeeded s /\ (t ∉ failed s) /\
     exists r, (t, r) ∈ issued s /\
       v = U64.to_int (U64.add (U64.sub (last r) (first r)) 1))
  /\ NoDup ((notes s).*1)
  /\ (forall t, t ∈ failed s -> (t ∉ succeeded s) /\ (t ∉ (notes s).*1))
  /\ (exited s ->
      forall t r, (t, r) ∈ issued s ->
        (t ∈ (notes s).*1 <-> t ∈ succeeded s)
        /\ (t ∈ succeeded s <-> t ∉ failed s)).
Proof.
  intros s. pose proof (invariant_run chunkSize size n sched) as I.
  fold s in I.
  assert (Hsub : forall t, t ∈ (notes s).*1 -> t ∈ succeeded s).
  { intros t Ht. rewrite (inv_succeeded _ _ _ _ I). apply elem_of_app. left.
    exact Ht. }
  split; [|split; [|split]].
  - intros t v Hin.
    assert (Ht : t ∈ succeeded s).
    { apply Hsub, list_elem_of_fmap. exists (t, v). split; [reflexivity|exact Hin]. }
    split; [exact Ht|]. split; [exact (succeeded_not_failed _ _ _ _ _ I Ht)|].
    exact (inv_notes _ _ _ _ I t v Hin).
  - pose proof (tickets_NoDup _ _ _ _ I) as ND.
    apply NoDup_app in ND as (ND & _). exact ND.
  - intros t Hf.
    assert (Hns : t ∉ succeeded s).
    { intros Hs. exact (succeeded_not_failed _ _ _ _ _ I Hs Hf). }
    split; [exact Hns|]. intros Hn. apply Hns, Hsub, Hn.
  - intros Hex t r Hin.
    pose proof (exited_all_done _ _ _ _ I Hex) as Hall.
    pose proof (inv_succeeded _ _ _ _ I) as Ps.
    pose proof (inv_tickets _ _ _ _ I) as Pt.
    unfold all_sending in Ps. unfold all_held in Pt.
    rewrite (bind_all_done sending _ eq_refl Hall), app_nil_r in Ps.
    rewrite (bind_all_done held _ eq_refl Hall), app_nil_r in Pt.
    split.
    + rewrite Ps. reflexivity.
    + split; [apply (succeeded_not_failed _ _ _ _ _ I)|].
      intros Hnf.
      assert (Ht : t ∈ (issued s).*1).
      { apply list_elem_of_fmap. exists (t, r). split; [reflexivity|exact Hin]. }
      rewrite Pt in Ht. apply elem_of_app in Ht as [Ht|Ht]; [|contradiction].
      rewrite Ps. exact Ht.
Qed.

(** C9: in any reachable state in which worker [i] holds the range [rg], a
    response with any status code whose body is copied without error makes
    [Download] return nil: the body is written at offset [int64(start)],
    the download counts as succeeded, and the worker goes on to notify
    [int(end - start + 1)] bytes, which it has done by the time it leaves
    that point and in any case when the process has exited. *)
Theorem C9_status_code_ignored (chunkSize size : Z) (n : nat)
    (sched : list event) (i t : nat) (rg : range) (code : Z)
    (body : list Byte.byte) :
  let s := run chunkSize size n sched in
  workers s !! i = Some (WDownload t rg) ->
  let s1 := step chunkSize size s (EvWorker i (Sent (Resp code body None))) in
  let v := U64.to_int (U64.add (U64.sub (last rg) (first rg)) 1) in
  Download (Resp code body None) = ([body], false, [])
  /\ file s1 = file s ++ [Write t (U64.to_int (first rg)) body]
  /\ http s1 = http s ++ [Get t (first rg) (last rg)]
  /\ succeeded s1 = succeeded s ++ [t]
  /\ failed s1 = failed s
  /\ workers s1 !! i = Some (WSend t v)
  /\ forall sched',
       let s2 := exec chunkSize size s1 sched' in
       (workers s2 !! i = Some (WSend t v) \/ (t, v) ∈ notes s2)
       /\ (exited s2 -> (t, v) ∈ notes s2).
Proof.
  intros s Hw s1 v.
  pose proof (invariant_run chunkSize size n sched) as I. fold s in I.
  assert (Hm : main_pc s = MWait).
  { apply (waiting chunkSize size n s i _ I Hw). discriminate. }
  assert (E : s1 =
    log_succeeded t
      (set_worker i (WSend t (Downloaded rg))
         (log_file [Write t (U64.to_int (first rg)) body]
            (log_http (Get t (first rg) (last rg)) s)))).
  { unfold s1. rewrite step_live by (rewrite Hm; discriminate).
    unfold worker_step. rewrite Hw. reflexivity. }
  assert (Hw1 : workers s1 !! i = Some (WSend t v)).
  { rewrite E. state_simpl. apply list_lookup_insert_eq.
    apply lookup_lt_Some in Hw. exact Hw. }
  split; [reflexivity|].
  split; [rewrite E; reflexivity|].
  split; [rewrite E; reflexivity|].
  split; [rewrite E; reflexivity|].
  split; [rewrite E; reflexivity|].
  split; [exact Hw1|].
  intros sched' s2.
  pose proof (pending_or_notified chunkSize size s1 i t v sched' Hw1) as P.
  fold s2 in P. split; [exact P|].
  intros Hex. destruct P as [P|P]; [|exact P]. exfalso.
  assert (I2 : invariant chunkSize size n s2).
  { unfold s2, s1, s, run. rewrite <- exec_snoc, <- exec_app.
    apply (invariant_run chunkSize size n). }
  pose proof (forallb_is_done_lookup _ _ _
                (exited_all_done _ _ _ _ I2 Hex) P).
  discriminate.
Qed.

Lemma C9_status_code_ignored_witness :
  workers (run 10 25 1 [EvWorker 0 NewRequestErr]) !! 0%nat
    = Some (WDownload 0 (Range 0 0 9))
  /\ (0%nat, 10) ∈
       notes (exec 10 25
                (step 10 25 (run 10 25 1 [EvWorker 0 NewRequestErr])
                   (EvWorker 0
                      (Sent (Resp 404 [Byte.x34; Byte.x30; Byte.x34] None))))
                [EvWorker 0 NewRequestErr]).
Proof.
  split; [reflexivity|].
  destruct (C9_status_code_ignored 10 25 1 [EvWorker 0 NewRequestErr]
              0%nat 0%nat (Range 0 0 9) 404 [Byte.x34; Byte.x30; Byte.x34]
              eq_refl) as (_ & _ & _ & _ & _ & _ & H).
  destruct (H [EvWorker 0 NewRequestErr]) as [[P|P] _].
  - vm_compute in P. discriminate P.
  - exact P.
Defined.

(** ** Runs whose cursor arithmetic does not wrap *)

Lemma total_live_lookup ws (i : nat) w : ws !! i = Some w -> live w <= total live ws.
Proof.
  revert i. induction ws as [|x ws IH]; intros [|i] H; try discriminate.
  - injection H as ->. rewrite total_cons.
    pose proof (total_live_bounds ws). lia.
  - rewrite total_cons. specialize (IH i H).
    assert (0 <= live x) by (destruct x; cbn; lia). lia.
Qed.

Section Bounded.

Variable chunkSize : Z.
Variable size : Z.
Variable n : nat.
Hypothesis chunkSize_pos : 0 < chunkSize.
Hypothesis size_range : U64.in_range size.
Hypothesis workers_pos : (1 <= n)%nat.
Hypothesis cursor_fits : fits chunkSize size n.

Local Abbreviation m := (chunks chunkSize size).

Lemma fits_index k : 0 <= k <= m + Z.of_nat n - 1 -> k * chunkSize < U64.modulus.
Proof. unfold fits in cursor_fits. intros H. nia. Qed.

Lemma fits_chunks : m * chunkSize < U64.modulus.
Proof.
  pose proof (chunks_nonneg chunkSize size chunkSize_pos size_range).
  apply fits_index. lia.
Qed.

Lemma fits_count : m + Z.of_nat n <= U64.modulus.
Proof.
  pose proof (chunks_nonneg chunkSize size chunkSize_pos size_range).
  unfold fits in cursor_fits. nia.
Qed.

Lemma chunk_at_fits (k : nat) :
  Z.of_nat k <= m + Z.of_nat n - 1 ->
  chunk_at chunkSize size k =
    if Z.of_nat k <? m then Some (nth_chunk chunkSize k) else None.
Proof.
  intros Hk. pose proof fits_chunks as Hm.
  unfold chunk_at. rewrite NextChunk_wrap.
  rewrite (NextChunk_fits chunkSize size chunkSize_pos)
    by (try apply fits_index; lia).
  cbn [snd]. destruct (Z.ltb_spec (Z.of_nat k) m) as [Hlt|Hge]; [|reflexivity].
  cbn. unfold nth_chunk, range_of. do 3 f_equal.
  apply wrap_small. unfold U64.in_range. nia.
Qed.

Lemma omap_chunk_at (len : nat) :
  Z.of_nat len <= m + Z.of_nat n ->
  omap (chunk_at chunkSize size) (seq 0 len)
  = nth_chunk chunkSize <$> seq 0 (min len (Z.to_nat m)).
Proof.
  pose proof (chunks_nonneg chunkSize size chunkSize_pos size_range) as Hm.
  induction len as [|len IH]; intros Hlen; [reflexivity|].
  rewrite seq_snoc, omap_snoc, IH, chunk_at_fits by lia.
  destruct (Z.ltb_spec (Z.of_nat len) m) as [Hlt|Hge].
  - rewrite (Nat.min_l (S len)), (Nat.min_l len) by lia.
    rewrite seq_snoc, fmap_app. reflexivity.
  - rewrite (Nat.min_r (S len)), (Nat.min_r len), app_nil_r by lia.
    reflexivity.
Qed.

Lemma bounded_init lines reqs : bounded chunkSize size n (init n lines reqs).
Proof.
  pose proof (chunks_nonneg chunkSize size chunkSize_pos size_range) as Hm.
  unfold bounded, init. state_simpl. cbn [length].
  pose proof (total_live_bounds (replicate n WClaim)) as B.
  rewrite length_replicate in B. lia.
Qed.

Lemma bounded_trans s s' :
  invariant chunkSize size n s -> bounded chunkSize size n s ->
  trans chunkSize size s s' -> bounded chunkSize size n s'.
Proof.
  intros I B T. unfold bounded in *.
  pose proof (chunks_nonneg chunkSize size chunkSize_pos size_range) as Hm.
  destruct T as [i c' H HN|i c' rg H HN|i t rg H|i t rg a data lines H HD
                |i t rg a data lines H HD|i t v H Hlen|v rest Ha Hst
                |Ha Hst Hclosed|Hmn Hall|Hmn|Hmn];
    state_simpl; try exact B;
    try (rewrite (total_insert live _ _ _ _ H); cbn [live is_done]; lia).
  - rewrite length_app, (total_insert live _ _ _ _ H). cbn [live is_done length].
    lia.
  - rewrite length_app, (total_insert live _ _ _ _ H). cbn [live is_done length].
    pose proof (total_live_lookup _ _ _ H) as L. cbn [live is_done] in L.
    pose proof (total_live_bounds (workers s)) as LB.
    rewrite (inv_workers _ _ _ _ I) in LB.
    rewrite (inv_cursor _ _ _ _ I), NextChunk_wrap in HN.
    rewrite (NextChunk_fits chunkSize size chunkSize_pos) in HN
      by (try apply fits_index; lia).
    destruct (Z.ltb_spec (Z.of_nat (length (fetched s))) m); [lia|].
    injection HN as _ HN. discriminate HN.
Qed.

Lemma bounded_run sched : bounded chunkSize size n (run chunkSize size n sched).
Proof.
  assert (H : invariant chunkSize size n (run chunkSize size n sched)
              /\ bounded chunkSize size n (run chunkSize size n sched)).
  { unfold run. apply exec_ind.
    - split; [apply invariant_init; reflexivity | apply bounded_init].
    - intros s1 s2 [I B] T. split.
      + exact (invariant_trans _ _ _ _ _ I T).
      + exact (bounded_trans _ _ I B T). }
  exact (proj2 H).
Qed.

(** The ranges issued so far are those of the first chunks, in order. *)
Lemma issued_chunks s :
  invariant chunkSize size n s -> bounded chunkSize size n s ->
  issued s
  = nth_chunk chunkSize <$> seq 0 (min (length (fetched s)) (Z.to_nat m)).
Proof.
  intros I B. rewrite (inv_issued _ _ _ _ I). apply omap_chunk_at.
  unfold bounded in B. pose proof (total_live_bounds (workers s)). lia.
Qed.

(** Once every goroutine has returned and one of them did so without a
    failed download, all chunks have been issued. *)
Lemma issued_all s :
  invariant chunkSize size n s -> bounded chunkSize size n s ->
  forallb is_done (workers s) = true ->
  (length (failed s) < n)%nat ->
  (issued s).*2 = expected_ranges chunkSize size.
Proof.
  intros I B Hall Hf.
  pose proof (chunks_nonneg chunkSize size chunkSize_pos size_range) as Hm.
  pose proof (inv_count _ _ _ _ I) as C.
  rewrite (total_live_done _ Hall) in C.
  pose proof (issued_chunks s I B) as E.
  assert (L : length (issued s)
              = min (length (fetched s)) (Z.to_nat m)).
  { rewrite E, length_fmap, length_seq. reflexivity. }
  assert (Hmin : min (length (fetched s)) (Z.to_nat m) = Z.to_nat m) by lia.
  rewrite E, Hmin. unfold expected_ranges, nth_chunk.
  rewrite <- list_fmap_compose. reflexivity.
Qed.

(** ** Termination *)

Lemma measure_nonneg s :
  bounded chunkSize size n s -> 0 <= measure chunkSize size n s.
Proof.
  unfold bounded, measure. intros B.
  pose proof (total_live_bounds (workers s)).
  pose proof (total_weight_nonneg (workers s)).
  destruct (main_pc s); destruct (aggregator_done s); cbn [main_weight]; lia.
Qed.

Lemma measure_trans s s' :
  trans chunkSize size s s' ->
  measure chunkSize size n s' < measure chunkSize size n s.
Proof.
  intros T. unfold measure.
  destruct T as [i c' H HN|i c' rg H HN|i t rg H|i t rg a data lines H HD
                |i t rg a data lines H HD|i t v H Hlen|v rest Ha Hst
                |Ha Hst Hclosed|Hmn Hall|Hmn|Hmn];
    state_simpl;
    rewrite ?length_app, ?(total_insert weight _ _ _ _ H), ?Ha, ?Hst, ?Hmn;
    cbn [weight main_weight length]; lia.
Qed.

(** While the process has not exited, some goroutine can act. *)
Lemma progress s :
  invariant chunkSize size n s -> ~ exited s ->
  exists ev, trans chunkSize size s (step chunkSize size s ev).
Proof.
  intros I Hne. unfold step.
  destruct (main_pc s) as [| | |code] eqn:Hm.
  - destruct (forallb is_done (workers s)) eqn:Hall.
    + exists EvMain. unfold main_step. rewrite Hm, Hall. constructor; assumption.
    + destruct (not_all_done _ Hall) as (i & w & Hw & Hnd).
      destruct w as [|t rg|t v|]; [| | |congruence].
      * exists (EvWorker i NewRequestErr). unfold worker_step. rewrite Hw.
        destruct (NextChunk chunkSize size (partCount s)) as [c' [rg|]] eqn:HN;
          econstructor; eassumption.
      * exists (EvWorker i NewRequestErr). unfold worker_step. rewrite Hw.
        econstructor; eassumption.
      * destruct (Nat.ltb_spec (length (status s)) status_cap) as [Hlt|Hge].
        -- exists (EvWorker i NewRequestErr). unfold worker_step. rewrite Hw.
           destruct (Nat.ltb_spec (length (status s)) status_cap); [|lia].
           econstructor; eassumption.
        -- exists EvAggregator. unfold aggregator_step.
           destruct (aggregator_done s) eqn:Ha.
           { apply (inv_aggregator _ _ _ _ I) in Ha.
             apply (inv_closed _ _ _ _ I) in Ha as [Ha _]. congruence. }
           destruct (status s) as [|v' rest] eqn:Hst;
             [unfold status_cap in Hge; cbn in Hge; lia|].
           econstructor; eassumption.
  - exists EvMain. unfold main_step. rewrite Hm. constructor. exact Hm.
  - exists EvMain. unfold main_step. rewrite Hm. constructor. exact Hm.
  - exfalso. apply Hne. exists code. exact Hm.
Qed.

Lemma trans_changes s s' : trans chunkSize size s s' -> s' <> s.
Proof.
  intros T E. pose proof (measure_trans _ _ T) as M. rewrite E in M. lia.
Qed.

Lemma all_runs_exit_bounded (k : nat) s :
  invariant chunkSize size n s -> bounded chunkSize size n s ->
  measure chunkSize size n s <= Z.of_nat k ->
  all_runs_exit chunkSize size s.
Proof.
  revert s. induction k as [|k IH]; intros s I B M.
  - destruct (main_pc s) as [| | |code] eqn:Hm;
      [| | |apply are_exited; exists code; exact Hm];
      (destruct (progress s I) as [ev T];
       [intros [code Hc]; congruence|];
       pose proof (measure_trans _ _ T);
       pose proof (measure_nonneg _
                     (bounded_trans _ _ I B T)); lia).
  - destruct (main_pc s) as [| | |code] eqn:Hm;
      [| | |apply are_exited; exists code; exact Hm];
      (apply are_step;
       [ destruct (progress s I) as [ev T];
         [intros [code Hc]; congruence|];
         exists ev; exact (trans_changes _ _ T)
       | intros ev Hev;
         destruct (step_trans chunkSize size s ev) as [E|T];
         [contradiction|];
         apply IH;
         [ exact (invariant_trans _ _ _ _ _ I T)
         | exact (bounded_trans _ _ I B T)
         | pose proof (measure_trans _ _ T); lia ] ]).
Qed.

(** From every state a schedule can reach, every further scheduling ends
    in the exit of the process. *)
Lemma run_exits sched :
  all_runs_exit chunkSize size (run chunkSize size n sched).
Proof.
  pose proof (bounded_run sched) as B.
  apply (all_runs_exit_bounded
           (Z.to_nat (measure chunkSize size n (run chunkSize size n sched)))).
  - apply invariant_run.
  - exact B.
  - pose proof (measure_nonneg _ B). lia.
Qed.

End Bounded.

(** ** One worker doing all the work *)

Lemma NoDup_of_submseteq {A} (l k : list A) : l ⊆+ k -> NoDup k -> NoDup l.
Proof.
  intros [k' E]%submseteq_Permutation ND. rewrite E in ND.
  apply NoDup_app in ND as (ND & _). exact ND.
Qed.

Lemma sending_held ws : all_sending ws ⊆+ all_held ws.
Proof.
  unfold all_sending, all_held. induction ws as [|w ws IH]; [constructor|].
  rewrite !bind_cons. apply submseteq_app; [|exact IH].
  destruct w; cbn; [reflexivity | apply submseteq_nil_l | reflexivity
                   | reflexivity].
Qed.

Section Solo.

Variable chunkSize : Z.
Variable size : Z.
Variable n : nat.
Hypothesis chunkSize_pos : 0 < chunkSize.
Hypothesis size_range : U64.in_range size.
Hypothesis workers_pos : (1 <= n)%nat.

Local Abbreviation m := (chunks chunkSize size).

(** The range issued at the [k]-th fetch while chunks remain. *)
Lemma NextChunk_below (k : nat) :
  Z.of_nat k < m ->
  NextChunk chunkSize size (U64.wrap (Z.of_nat k)) =
    (U64.wrap (Z.of_nat k + 1),
     Some (Range (Z.of_nat k) (Z.of_nat k * chunkSize)
             (U64.wrap ((Z.of_nat k + 1) * chunkSize - 1)))).
Proof.
  intros Hk. rewrite NextChunk_wrap.
  assert (Hlt : Z.of_nat k * chunkSize < size)
    by (apply (chunks_spec chunkSize size chunkSize_pos); exact Hk).
  rewrite (NextChunk_fits chunkSize size chunkSize_pos)
    by (unfold U64.in_range in size_range; lia).
  destruct (Z.ltb_spec (Z.of_nat k) m); [reflexivity | lia].
Qed.

Lemma step_claim s (i : nat) r cursor' rg :
  main_pc s = MWait -> workers s !! i = Some WClaim ->
  NextChunk chunkSize size (partCount s) = (cursor', Some rg) ->
  step chunkSize size s (EvWorker i r) =
    log_issued (length (fetched s), rg)
      (set_worker i (WDownload (length (fetched s)) rg)
         (log_fetched (partCount s) (set_partCount cursor' s))).
Proof.
  intros Hm Hw HN. unfold step, worker_step. rewrite Hm, Hw, HN. reflexivity.
Qed.

Lemma step_exhausted s (i : nat) r cursor' :
  main_pc s = MWait -> workers s !! i = Some WClaim ->
  NextChunk chunkSize size (partCount s) = (cursor', None) ->
  step chunkSize size s (EvWorker i r) =
    set_worker i WDone (log_fetched (partCount s) (set_partCount cursor' s)).
Proof.
  intros Hm Hw HN. unfold step, worker_step. rewrite Hm, Hw, HN. reflexivity.
Qed.

Lemma step_download_ok s (i t : nat) rg code body :
  main_pc s = MWait -> workers s !! i = Some (WDownload t rg) ->
  step chunkSize size s (EvWorker i (Sent (Resp code body None))) =
    log_succeeded t
      (set_worker i (WSend t (Downloaded rg))
         (log_file [Write t (U64.to_int (first rg)) body]
            (log_http (Get t (first rg) (last rg)) s))).
Proof.
  intros Hm Hw. unfold step, worker_step. rewrite Hm, Hw. reflexivity.
Qed.

Lemma step_send s (i t : nat) v r :
  main_pc s = MWait -> workers s !! i = Some (WSend t v) -> status s = [] ->
  step chunkSize size s (EvWorker i r) =
    log_note (t, v) (set_status [v] (set_worker i WClaim s)).
Proof.
  intros Hm Hw Hst. unfold step, worker_step. rewrite Hm, Hw, Hst. reflexivity.
Qed.

Lemma step_receive s v rest :
  main_pc s = MWait -> aggregator_done s = false -> status s = v :: rest ->
  step chunkSize size s EvAggregator =
    log_output [Progress (U64.int_add (totalDownloaded s) v) size]
      (set_totalDownloaded (U64.int_add (totalDownloaded s) v)
         (set_status rest s)).
Proof.
  intros Hm Ha Hst. unfold step, aggregator_step. rewrite Hm, Ha, Hst.
  reflexivity.
Qed.

Lemma solo_round_spec (k : nat) s :
  at_rest chunkSize size n k s -> Z.of_nat k < m ->
  let s' := exec chunkSize size s solo_round in
  at_rest chunkSize size n (S k) s'
  /\ issued s' =
     issued s ++
       [(k, Range (Z.of_nat k) (Z.of_nat k * chunkSize)
              (U64.wrap ((Z.of_nat k + 1) * chunkSize - 1)))].
Proof.
  intros (Hlen & Hws & Hst & Hm & Ha & I) Hk s'.
  assert (I' : invariant chunkSize size n s').
  { unfold s'. apply exec_ind; [exact I|].
    intros s1 s2. apply invariant_trans. }
  assert (Hn : (0 < length (workers s))%nat)
    by (rewrite Hws, length_replicate; lia).
  assert (Hw0 : workers s !! 0%nat = Some WClaim).
  { rewrite Hws. apply lookup_replicate_2. lia. }
  pose proof (NextChunk_below k Hk) as HN.
  rewrite <- Hlen, <- (inv_cursor _ _ _ _ I) in HN at 1.
  set (rg := Range (Z.of_nat k) (Z.of_nat k * chunkSize)
               (U64.wrap ((Z.of_nat k + 1) * chunkSize - 1))) in *.
  subst s'. remember (exec chunkSize size s solo_round) as sf eqn:E.
  unfold solo_round, exec in E. cbn [foldl] in E.
  rewrite (step_claim s 0 _ _ rg Hm Hw0 HN), Hlen in E.
  rewrite (step_download_ok _ 0 k rg) in E;
    [|exact Hm|state_simpl; apply list_lookup_insert_eq; exact Hn].
  rewrite (step_send _ 0 k (Downloaded rg)) in E;
    [|exact Hm
     |state_simpl; apply list_lookup_insert_eq; rewrite length_insert; exact Hn
     |exact Hst].
  rewrite (step_receive _ (Downloaded rg) []) in E;
    [|exact Hm|exact Ha|reflexivity].
  split; [|rewrite E; reflexivity].
  unfold at_rest. split; [|split; [|split; [|split; [|split]]]];
    try exact I'; rewrite E; state_simpl.
  - rewrite length_app, Hlen. cbn. lia.
  - rewrite !list_insert_insert_eq, Hws. apply insert_replicate.
  - reflexivity.
  - exact Hm.
  - exact Ha.
Qed.

(** For every [k] up to the number of chunks there is a schedule after which
    worker 0 has been issued the first [k] chunks and everything is at
    rest. *)
Lemma solo_rounds (k : nat) :
  Z.of_nat k <= m ->
  exists sched,
    at_rest chunkSize size n k (run chunkSize size n sched)
    /\ forall j : nat, (j < k)%nat ->
         (j, Range (Z.of_nat j) (Z.of_nat j * chunkSize)
               (U64.wrap ((Z.of_nat j + 1) * chunkSize - 1)))
         ∈ issued (run chunkSize size n sched).
Proof.
  induction k as [|k IH]; intros Hk.
  - exists []. split; [|intros j Hj; lia].
    unfold at_rest, run. cbn.
    do 5 (split; [reflexivity|]). apply invariant_init. reflexivity.
  - destruct IH as (sched & R & Hiss); [lia|].
    exists (sched ++ solo_round).
    unfold run in *. rewrite exec_app.
    destruct (solo_round_spec k _ R ltac:(lia)) as [R' E].
    split; [exact R'|].
    intros j Hj. rewrite E. apply elem_of_app.
    destruct (decide (j = k)) as [->|Hne].
    + right. apply list_elem_of_here.
    + left. apply Hiss. lia.
Qed.

End Solo.

(** ** What a run issues, requests and writes *)

Lemma requests_NoDup chunkSize size n s :
  invariant chunkSize size n s -> NoDup (get_tickets (http s)).
Proof.
  intros I. apply (NoDup_of_submseteq _ _ (inv_requested _ _ _ _ I)).
  apply (NoDup_of_submseteq _
           ((notes s).*1 ++ failed s ++ all_held (workers s)));
    [|apply (tickets_NoDup _ _ _ _ I)].
  rewrite (inv_succeeded _ _ _ _ I).
  transitivity ((notes s).*1 ++ failed s ++ all_sending (workers s)).
  - apply Permutation_submseteq. solve_Permutation.
  - do 2 apply submseteq_skips_l. apply sending_held.
Qed.

Lemma writes_NoDup chunkSize size n s :
  invariant chunkSize size n s -> NoDup (w_ticket <$> file s).
Proof.
  intros I. eapply sublist_NoDup; [|exact (inv_written _ _ _ _ I)].
  exact (requests_NoDup _ _ _ _ I).
Qed.

Lemma failed_not_notified chunkSize size n s t :
  invariant chunkSize size n s -> t ∈ failed s -> t ∉ (notes s).*1.
Proof.
  intros I Hf Hn. pose proof (tickets_NoDup _ _ _ _ I) as ND.
  apply NoDup_app in ND as (_ & Hdisj & _).
  apply (Hdisj t Hn). apply elem_of_app. left. exact Hf.
Qed.

Section Runs.

Variable chunkSize : Z.
Variable size : Z.
Variable n : nat.
Hypothesis chunkSize_pos : 0 < chunkSize.
Hypothesis size_range : U64.in_range size.
Hypothesis workers_pos : (1 <= n)%nat.
Hypothesis cursor_fits : fits chunkSize size n.

Variable sched : list event.

Local Abbreviation m := (chunks chunkSize size).
Local Abbreviation s := (run chunkSize size n sched).

Lemma run_invariant : invariant chunkSize size n s.
Proof. apply invariant_run. Qed.

Lemma run_bounded : bounded chunkSize size n s.
Proof. eapply bounded_run; eassumption. Qed.

Lemma run_issued :
  issued s
  = nth_chunk chunkSize <$> seq 0 (min (length (fetched s)) (Z.to_nat m)).
Proof. eapply issued_chunks; eauto using run_invariant, run_bounded. Qed.

Lemma run_fetches : Z.of_nat (length (fetched s)) <= m + Z.of_nat n.
Proof.
  pose proof run_bounded as B. unfold bounded in B.
  pose proof (total_live_bounds (workers s)). lia.
Qed.

Lemma run_count : m + Z.of_nat n <= U64.modulus.
Proof. eapply fits_count; eassumption. Qed.

Lemma run_chunks : 0 <= m /\ m * chunkSize < U64.modulus.
Proof.
  split; [apply chunks_nonneg; assumption | eapply fits_chunks; eassumption].
Qed.

(** An issued range is the chunk of its ticket. *)
Lemma run_issued_chunk t r :
  (t, r) ∈ issued s -> r = range_of chunkSize (Z.of_nat t) /\ Z.of_nat t < m.
Proof.
  rewrite run_issued. intros (k & E & Hk)%list_elem_of_fmap.
  apply elem_of_seq in Hk. unfold nth_chunk in E. injection E as -> ->.
  split; [reflexivity | lia].
Qed.

Lemma run_fetched_NoDup : NoDup (fetched s).
Proof.
  rewrite (inv_fetched _ _ _ _ run_invariant).
  pose proof run_fetches. pose proof run_count.
  apply NoDup_fmap_2_strong; [|apply NoDup_seq].
  intros x y Hx%elem_of_seq Hy%elem_of_seq E.
  rewrite !wrap_small in E by (unfold U64.in_range; lia). lia.
Qed.

Lemma run_index_NoDup : NoDup (index <$> (issued s).*2).
Proof.
  rewrite run_issued, <- !list_fmap_compose.
  apply NoDup_fmap_2_strong; [|apply NoDup_seq].
  intros x y _ _ E. cbn in E. lia.
Qed.

Lemma run_disjoint t r t' r' :
  (t, r) ∈ issued s -> (t', r') ∈ issued s -> t' <> t -> disjoint_ranges r r'.
Proof.
  intros [-> Ht]%run_issued_chunk [-> Ht']%run_issued_chunk Hne.
  unfold disjoint_ranges. cbn.
  destruct (Nat.lt_total t t') as [H|[H|H]]; [left; nia | congruence | right; nia].
Qed.

(** A write of at most [chunkSize] bytes stays outside the range of every
    other claim. *)
Lemma run_write_outside t r w pos :
  (t, r) ∈ issued s -> w ∈ file s -> w_ticket w <> t ->
  Z.of_nat (length (w_data w)) <= chunkSize ->
  first r <= pos <= last r -> ~ covers w pos.
Proof.
  intros Hin Hw Hne Hlen Hpos [Hc1 Hc2].
  destruct (inv_file _ _ _ _ run_invariant w Hw) as (r' & Hin' & Hoff).
  apply run_issued_chunk in Hin as [-> Ht].
  apply run_issued_chunk in Hin' as [-> Ht'].
  destruct run_chunks as [Hm0 Hm].
  cbn [first last range_of] in *. rewrite Hoff in Hc1, Hc2.
  unfold U64.to_int in Hc1, Hc2.
  destruct (Z.ltb_spec (Z.of_nat (w_ticket w) * chunkSize) U64.half).
  - destruct (Nat.lt_total (w_ticket w) t) as [H'|[H'|H']];
      [nia | congruence | nia].
  - nia.
Qed.

(** The notifications of a finished run without a failed download add up to
    one chunk size per chunk. *)
Lemma run_notified :
  chunkSize < U64.half -> exited s -> failed s = [] ->
  notified_bytes s = m * chunkSize.
Proof.
  intros Hhalf Hex Hf.
  pose proof run_invariant as I.
  pose proof (exited_all_done _ _ _ _ I Hex) as Hall.
  pose proof (inv_tickets _ _ _ _ I) as Pt.
  unfold all_held in Pt.
  rewrite Hf, (bind_all_done held _ eq_refl Hall), app_nil_r in Pt.
  cbn [app] in Pt.
  assert (Hlen : length (notes s) = Z.to_nat m).
  { apply Permutation_length in Pt. rewrite !length_fmap in Pt.
    rewrite <- Pt.
    assert (E : (issued s).*2 = expected_ranges chunkSize size).
    { eapply issued_all; eauto using run_bounded.
      rewrite Hf. cbn. lia. }
    apply (f_equal length) in E.
    unfold expected_ranges in E. rewrite !length_fmap, length_seq in E.
    exact E. }
  unfold notified_bytes. rewrite (total_const snd _ chunkSize).
  - rewrite Hlen. destruct run_chunks. lia.
  - intros [t v] Hin. cbn.
    destruct (inv_notes _ _ _ _ I t v Hin) as (r & Hr & ->).
    rewrite (issued_Downloaded _ _ _ _ _ _ I Hr).
    rewrite wrap_small by (unfold U64.in_range, U64.half, U64.modulus in *; lia).
    apply to_int_small. lia.
Qed.

End Runs.

(** ** Bytes reported *)

Lemma chunks_exact chunkSize size :
  0 < chunkSize -> 0 <= size ->
  (chunks chunkSize size * chunkSize = size <-> size mod chunkSize = 0).
Proof.
  intros Hc Hs. unfold chunks. split.
  - intros H. apply Z.mod_divide; [lia|].
    exists ((size + chunkSize - 1) / chunkSize). lia.
  - intros H. apply Z.mod_divide in H; [|lia]. destruct H as [k ->].
    replace ((k * chunkSize + chunkSize - 1) / chunkSize) with k; [reflexivity|].
    apply (Z.div_unique _ _ k (chunkSize - 1)); [left; lia | ring].
Qed.

(** C2, as amended: when the cursor arithmetic does not wrap, every
    scheduling of the goroutines ends in the exit of the process, and if no
    download has failed by then the notifications sent add up to
    [ceil(size/chunkSize) * chunkSize], one full chunk size per chunk, the
    last one included; the sum is the size exactly when the chunk size
    divides the size. *)
Theorem C2_notified_bytes (chunkSize size : Z) (n : nat)
    (sched : list event) :
  0 < chunkSize < U64.half -> U64.in_range size -> (1 <= n)%nat ->
  fits chunkSize size n ->
  let s := run chunkSize size n sched in
  all_runs_exit chunkSize size s
  /\ (exited s -> failed s = [] ->
      notified_bytes s = chunks chunkSize size * chunkSize
      /\ (notified_bytes s = size <-> size mod chunkSize = 0)).
Proof.
  intros [Hc Hh] Hs Hn Hf s.
  split; [eapply run_exits; eassumption|].
  intros Hex Hfail.
  assert (E : notified_bytes s = chunks chunkSize size * chunkSize)
    by (eapply run_notified; eassumption).
  split; [exact E|]. rewrite E. apply chunks_exact; [exact Hc|].
  destruct Hs. assumption.
Qed.

Lemma C2_notified_bytes_witness :
  notified_bytes
    (run 10 25 1
       [EvWorker 0 NewRequestErr; EvWorker 0 (Sent (Resp 206 [] None));
        EvWorker 0 NewRequestErr; EvAggregator;
        EvWorker 0 NewRequestErr; EvWorker 0 (Sent (Resp 206 [] None));
        EvWorker 0 NewRequestErr; EvAggregator;
        EvWorker 0 NewRequestErr; EvWorker 0 (Sent (Resp 206 [] None));
        EvWorker 0 NewRequestErr; EvAggregator;
        EvWorker 0 NewRequestErr; EvMain; EvMain; EvMain]) = 3 * 10.
Proof.
  refine (proj1 (proj2 (C2_notified_bytes 10 25 1 _ _ _ _ _) _ _)).
  - vm_compute. split; reflexivity.
  - vm_compute. split; [discriminate | reflexivity].
  - lia.
  - vm_compute. reflexivity.
  - exists 0. reflexivity.
  - reflexivity.
Defined.

(** C2, as stated, fails for the program's chunk size: a resource of one
    byte is one chunk, whose notification carries the whole chunk size. *)
Lemma C2_counterexample : ~ bytes_reported_spec chunkSize 1 1.
Proof.
  intros H.
  specialize
    (H [EvWorker 0 NewRequestErr; EvWorker 0 (Sent (Resp 206 [Byte.x00] None));
        EvWorker 0 NewRequestErr; EvAggregator;
        EvWorker 0 NewRequestErr; EvMain; EvMain; EvMain]).
  cbv zeta in H.
  assert (E : 10485760 = 1); [|discriminate E].
  apply H; [exists 0; reflexivity | reflexivity].
Qed.

(** ** No chunk is issued twice *)

(** C4, as amended: when the cursor arithmetic does not wrap, every cursor
    value is handed out once, every issued index is issued once and every
    claim is requested and written at most once; a claim whose download
    failed is never notified, every other issued or requested range is
    disjoint from its range, and no write of another claim that is at most
    one chunk size long touches its range (what the failed copy itself wrote
    before its error stays in the file, at the start of the range); every
    further scheduling ends in the exit of the process, and if at least one
    worker did not fail all chunks have been issued by then. *)
Theorem C4_no_reissue (chunkSize size : Z) (n : nat) (sched : list event) :
  0 < chunkSize -> U64.in_range size -> (1 <= n)%nat ->
  fits chunkSize size n ->
  let s := run chunkSize size n sched in
  NoDup (fetched s)
  /\ NoDup (index <$> (issued s).*2)
  /\ NoDup (get_tickets (http s))
  /\ NoDup (w_ticket <$> file s)
  /\ (forall t r, (t, r) ∈ issued s -> t ∈ failed s ->
        (t ∉ (notes s).*1)
        /\ (forall t' r', (t', r') ∈ issued s -> t' <> t ->
              disjoint_ranges r r')
        /\ (forall t' a b, Get t' a b ∈ http s -> t' <> t ->
              last r < a \/ b < first r)
        /\ (forall w pos, w ∈ file s -> w_ticket w <> t ->
              Z.of_nat (length (w_data w)) <= chunkSize ->
              first r <= pos <= last r -> ~ covers w pos)
        /\ (forall w, w ∈ file s -> w_ticket w = t ->
              w_off w = U64.to_int (first r)))
  /\ all_runs_exit chunkSize size s
  /\ (exited s -> (length (failed s) < n)%nat ->
      (issued s).*2 = expected_ranges chunkSize size).
Proof.
  intros Hc Hs Hn Hf s.
  pose proof (invariant_run chunkSize size n sched) as I. fold s in I.
  split; [eapply run_fetched_NoDup; eassumption|].
  split; [eapply run_index_NoDup; eassumption|].
  split; [exact (requests_NoDup _ _ _ _ I)|].
  split; [exact (writes_NoDup _ _ _ _ I)|].
  split; [|split].
  - intros t r Hin Hfail.
    split; [exact (failed_not_notified _ _ _ _ _ I Hfail)|].
    split; [|split; [|split]].
    + intros t' r' Hin' Hne. eapply run_disjoint; eassumption.
    + intros t' a b Hg Hne.
      destruct (inv_gets _ _ _ _ I t' a b Hg) as (r' & Hin' & -> & ->).
      assert (D : disjoint_ranges r r') by (eapply run_disjoint; eassumption).
      exact D.
    + intros w pos Hw Hne Hlen Hpos.
      eapply run_write_outside; eassumption.
    + intros w Hw Ht.
      destruct (inv_file _ _ _ _ I w Hw) as (r' & Hin' & ->).
      rewrite Ht in Hin'.
      assert (E : r = range_of chunkSize (Z.of_nat t)
                  /\ Z.of_nat t < chunks chunkSize size)
        by (eapply run_issued_chunk; eassumption).
      assert (E' : r' = range_of chunkSize (Z.of_nat t)
                   /\ Z.of_nat t < chunks chunkSize size)
        by (eapply run_issued_chunk; eassumption).
      destruct E as [-> _]. destruct E' as [-> _]. reflexivity.
  - eapply run_exits; eassumption.
  - intros Hex Hlt. eapply issued_all; try eassumption.
    + eapply bounded_run; eassumption.
    + exact (exited_all_done _ _ _ _ I Hex).
Qed.

Lemma C4_no_reissue_witness :
  (issued
     (run 10 25 2
        [EvWorker 0 NewRequestErr; EvWorker 0 (Sent DoErr);
         EvWorker 1 NewRequestErr; EvWorker 1 (Sent (Resp 206 [] None));
         EvWorker 1 NewRequestErr; EvAggregator;
         EvWorker 1 NewRequestErr; EvWorker 1 (Sent (Resp 206 [] None));
         EvWorker 1 NewRequestErr; EvAggregator;
         EvWorker 1 NewRequestErr; EvMain; EvMain; EvMain])).*2
  = expected_ranges 10 25.
Proof.
  refine (proj2 (proj2 (proj2 (proj2 (proj2 (proj2
            (C4_no_reissue 10 25 2 _ _ _ _ _)))))) _ _).
  - lia.
  - vm_compute. split; [discriminate | reflexivity].
  - lia.
  - vm_compute. reflexivity.
  - exists 0. reflexivity.
  - vm_compute. lia.
Defined.

(** C4, as stated, fails: a copy that stops with an error after one byte
    has written that byte into the range of the failed claim. *)
Lemma C4_counterexample : ~ failed_ranges_unwritten chunkSize 1 1.
Proof.
  intros H.
  apply
    (H [EvWorker 0 NewRequestErr;
        EvWorker 0 (Sent (Resp 206 [Byte.x00] (Some 1%nat)))]
       0%nat (Range 0 0 10485759)
       ltac:(vm_compute; constructor) ltac:(vm_compute; constructor)
       (Write 0 0 [Byte.x00]) 0
       ltac:(vm_compute; constructor)).
  - cbn. lia.
  - unfold covers. cbn. lia.
Qed.

(** ** One worker and many *)

Lemma fits_one chunkSize size n :
  0 < chunkSize -> U64.in_range size -> (1 <= n)%nat ->
  fits chunkSize size n -> fits chunkSize size 1.
Proof.
  intros Hc Hs Hn Hf. unfold fits in *.
  pose proof (chunks_nonneg chunkSize size Hc Hs). nia.
Qed.

(** C8, as amended: when the cursor arithmetic of [n] workers does not
    wrap, every range issued to [n] workers is issued to a lone worker in
    some schedule, and two finished runs without a failed download, one with
    [n] workers and one with a lone worker, were issued the same ranges;
    every scheduling of the [n] workers does finish. *)
Theorem C8_concurrency_invariant (chunkSize size : Z) (n : nat) :
  0 < chunkSize -> U64.in_range size -> (1 <= n)%nat ->
  fits chunkSize size n ->
  concurrency_invariant chunkSize size n
  /\ forall sched, all_runs_exit chunkSize size (run chunkSize size n sched).
Proof.
  intros Hc Hs Hn Hf.
  split; [|intros sched; eapply run_exits; eassumption].
  intros sched s.
  pose proof (fits_one _ _ _ Hc Hs Hn Hf) as Hf1.
  pose proof (invariant_run chunkSize size n sched) as I. fold s in I.
  split.
  - intros r [[t r'] [-> Hin]]%list_elem_of_fmap. cbn.
    assert (Hchunk : r' = range_of chunkSize (Z.of_nat t)
                     /\ Z.of_nat t < chunks chunkSize size)
      by (eapply run_issued_chunk; eassumption).
    destruct Hchunk as [-> Ht].
    assert (Hm : chunks chunkSize size * chunkSize < U64.modulus)
      by (eapply fits_chunks; eassumption).
    destruct (solo_rounds chunkSize size 1 Hc Hs ltac:(lia) (S t) ltac:(lia))
      as (sched1 & _ & Hiss).
    exists sched1. apply list_elem_of_fmap.
    exists (t, range_of chunkSize (Z.of_nat t)). split; [reflexivity|].
    specialize (Hiss t ltac:(lia)).
    rewrite wrap_small in Hiss by (unfold U64.in_range; nia).
    exact Hiss.
  - intros Hex Hfail sched1 s1 Hex1 Hfail1.
    pose proof (invariant_run chunkSize size 1 sched1) as I1. fold s1 in I1.
    assert (E : (issued s).*2 = expected_ranges chunkSize size).
    { eapply issued_all; try eassumption.
      - eapply bounded_run; eassumption.
      - exact (exited_all_done _ _ _ _ I Hex).
      - rewrite Hfail. cbn. lia. }
    assert (E1 : (issued s1).*2 = expected_ranges chunkSize size).
    { eapply (issued_all chunkSize size 1); try eassumption.
      - lia.
      - eapply bounded_run; try eassumption. lia.
      - exact (exited_all_done _ _ _ _ I1 Hex1).
      - rewrite Hfail1. cbn. lia. }
    rewrite E, E1. reflexivity.
Qed.

Lemma C8_concurrency_invariant_witness : concurrency_invariant 10 25 3.
Proof.
  refine (proj1 (C8_concurrency_invariant 10 25 3 _ _ _ _)).
  - lia.
  - vm_compute. split; [discriminate | reflexivity].
  - lia.
  - vm_compute. reflexivity.
Defined.

(** C8, as stated, fails for the program's chunk size at a size a server
    can announce.  With [size = 1759218604441 * chunkSize] a lone worker
    stops at index [1759218604441], whose start is the size.  With two
    workers, after one of them has stopped there the other fetches index
    [1759218604442], whose start has wrapped to [4194304]: it is issued the
    range [4194304 .. 14680063], which no lone worker is ever issued. *)
Lemma C8_counterexample :
  ~ concurrency_invariant chunkSize (1759218604441 * chunkSize) 2.
Proof.
  intros H.
  remember 1759218604441 as M eqn:EM.
  set (size := M * chunkSize) in *.
  assert (Hc : 0 < chunkSize) by reflexivity.
  assert (Hs : U64.in_range size)
    by (unfold size; rewrite EM; vm_compute; split; [discriminate|reflexivity]).
  assert (HM : chunks chunkSize size = M)
    by (unfold size; rewrite EM; vm_compute; reflexivity).
  assert (HM0 : 0 <= M) by (rewrite EM; discriminate).
  destruct (solo_rounds chunkSize size 2 Hc Hs ltac:(lia) (Z.to_nat M))
    as (sched & (Hlen & Hws & Hst & Hm & Ha & I) & _).
  { rewrite Z2Nat.id, HM by exact HM0. lia. }
  set (s := run chunkSize size 2 sched) in *.
  assert (Hp : partCount s = U64.wrap M).
  { rewrite (inv_cursor _ _ _ _ I), Hlen, Z2Nat.id by exact HM0. reflexivity. }
  assert (HN1 : NextChunk chunkSize size (partCount s) = (M + 1, None)).
  { rewrite Hp, NextChunk_wrap. unfold size. rewrite EM. vm_compute.
    reflexivity. }
  pose proof (step_exhausted chunkSize size s 1 NewRequestErr _ Hm
                ltac:(rewrite Hws; reflexivity) HN1) as E1.
  set (s1 := step chunkSize size s (EvWorker 1 NewRequestErr)) in *.
  assert (HN2 : NextChunk chunkSize size (partCount s1)
                = (M + 2, Some (Range (M + 1) 4194304 14680063))).
  { rewrite E1. state_simpl. unfold size. rewrite EM. vm_compute. reflexivity. }
  pose proof (step_claim chunkSize size s1 0 NewRequestErr _ _
                ltac:(rewrite E1; exact Hm)
                ltac:(rewrite E1; state_simpl; rewrite Hws; reflexivity)
                HN2) as E2.
  destruct (H (sched ++ [EvWorker 1 NewRequestErr; EvWorker 0 NewRequestErr]))
    as [Hmem _].
  unfold run in Hmem. rewrite exec_app in Hmem.
  unfold exec at 1 in Hmem. cbn [foldl] in Hmem.
  fold (run chunkSize size 2 sched) in Hmem. fold s in Hmem. fold s1 in Hmem.
  rewrite E2 in Hmem. state_simpl.
  destruct (Hmem (Range (M + 1) 4194304 14680063)) as (sched1 & Hin).
  { rewrite fmap_app. apply elem_of_app. right. apply list_elem_of_here. }
  apply list_elem_of_fmap in Hin as ([t r] & Er & Hin). cbn in Er.
  apply (run_issued_chunk chunkSize size 1 Hc Hs ltac:(lia)) in Hin.
  - destruct Hin as [Hr _]. rewrite <- Er in Hr.
    apply (f_equal first) in Hr. unfold range_of in Hr. cbn in Hr.
    unfold chunkSize in Hr. lia.
  - unfold fits. rewrite HM. unfold size. rewrite EM. vm_compute. reflexivity.
Qed.

(** ** [main] before the goroutines *)

Lemma Exists_true st override :
  (Exists st override).1 = true -> (Exists st override).2 = [].
Proof. destruct st, override; cbn; congruence. Qed.

(** Past its checks [main] is a run of the goroutines with the constant
    chunk size, the size of the HEAD response and [concurrencyLevel]
    workers. *)
Lemma main_run (fl : flags) (w : world) (sched : list event) (size : Z) :
  (Exists (stat w) (override fl)).1 = true ->
  GetFileSize w = (Ret (size, None), [Head]) ->
  open_ok w = true -> 0 <= concurrencyLevel fl ->
  main fl w sched
  = run chunkSize size (Z.to_nat (concurrencyLevel fl)) sched.
Proof.
  intros Hex Hsize Hopen Hconc. unfold main, run.
  pose proof (Exists_true _ _ Hex) as Hlines.
  destruct (Exists (stat w) (override fl)) as [ok lines].
  cbn in Hex, Hlines. subst ok lines. cbn [negb].
  rewrite Hsize, Hopen. cbn [negb].
  destruct (Z.ltb_spec (concurrencyLevel fl) 0); [lia | reflexivity].
Qed.

(** C7: when the destination exists and [override] is false, [main] logs
    and returns: no request has been sent, HEAD or GET, no goroutine was
    started, nothing was written, and the exit status is 0. *)
Theorem C7_existing_file_no_requests (fl : flags) (w : world)
    (sched : list event) :
  stat w = StatOk -> override fl = false ->
  let s := main fl w sched in
  http s = [] /\ main_pc s = MExited 0 /\ workers s = [] /\ file s = []
  /\ output s = [LogFileExists].
Proof.
  intros Hst Hov s. unfold s, main. rewrite Hst, Hov. cbn.
  repeat split; reflexivity.
Qed.

Lemma C7_existing_file_no_requests_witness :
  http (main (Flags "http://example.org/f" "f" false 10)
          (World StatOk true (HeadResponse "25") true)
          [EvWorker 0 NewRequestErr; EvAggregator; EvMain]) = [].
Proof.
  exact (proj1 (C7_existing_file_no_requests
                  (Flags "http://example.org/f" "f" false 10)
                  (World StatOk true (HeadResponse "25") true)
                  [EvWorker 0 NewRequestErr; EvAggregator; EvMain]
                  eq_refl eq_refl)).
Defined.

(** C10: when [os.Stat] fails with an error other than not-exist, [main]
    logs and returns whatever [override] is: no request has been sent, no
    goroutine was started, and the exit status is 0. *)
Theorem C10_stat_error_aborts (fl : flags) (w : world) (sched : list event) :
  stat w = StatOther ->
  let s := main fl w sched in
  http s = [] /\ main_pc s = MExited 0 /\ workers s = [] /\ file s = []
  /\ output s = [LogStatError].
Proof.
  intros Hst s. unfold s, main. rewrite Hst. cbn.
  repeat split; reflexivity.
Qed.

Lemma C10_stat_error_aborts_witness :
  main_pc (main (Flags "http://example.org/f" "f" true 10)
             (World StatOther true (HeadResponse "25") true)
             [EvWorker 0 NewRequestErr; EvAggregator; EvMain]) = MExited 0.
Proof.
  exact (proj1 (proj2 (C10_stat_error_aborts
                  (Flags "http://example.org/f" "f" true 10)
                  (World StatOther true (HeadResponse "25") true)
                  [EvWorker 0 NewRequestErr; EvAggregator; EvMain]
                  eq_refl))).
Defined.

Local Ltac fatal code :=
  cbn; split_and!; try reflexivity;
  [ exists code; split; [reflexivity | discriminate]
  | eexists; split;
    [reflexivity | first [left; reflexivity | right; eexists; reflexivity]]
  | .. ];
  intros; simplify_eq; try (split; reflexivity).

(** C5: once the destination check has passed, a failed HEAD request, a
    response without [Content-Length] or a failed [os.OpenFile] ends the
    process before any goroutine is started: no cursor fetch, no GET, no
    write; the last line printed is the fatal message and the exit status is
    not 0.  With a well-formed URL the failed HEAD request ends in the panic
    of the nil [resp] (status 2), the missing header and the failed open in
    [log.Fatal] (status 1). *)
Theorem C5_fatal_before_workers (fl : flags) (w : world)
    (sched : list event) :
  (Exists (stat w) (override fl)).1 = true ->
  head w = HeadFailed \/ head w = HeadResponse "" \/ open_ok w = false ->
  let s := main fl w sched in
  workers s = [] /\ fetched s = [] /\ issued s = [] /\ file s = []
  /\ get_tickets (http s) = []
  /\ (exists code, main_pc s = MExited code /\ code <> 0)
  /\ (exists l, output s = [l]
        /\ (l = PanicNilDereference \/ exists e, l = LogFatal e))
  /\ (url_ok w = true -> head w = HeadFailed ->
      main_pc s = MExited 2 /\ output s = [PanicNilDereference])
  /\ (url_ok w = true -> head w = HeadResponse "" ->
      main_pc s = MExited 1 /\ output s = [LogFatal ErrNoContentLength])
  /\ (forall size, GetFileSize w = (Ret (size, None), [Head]) ->
      open_ok w = false ->
      main_pc s = MExited 1 /\ output s = [LogFatal ErrOpen]).
Proof.
  intros Hex Hfail s. unfold s, main.
  pose proof (Exists_true _ _ Hex) as Hlines.
  destruct (Exists (stat w) (override fl)) as [ok lines].
  cbn in Hex, Hlines. subst ok lines. cbn [negb].
  unfold GetFileSize.
  destruct (url_ok w) eqn:Hurl; cbn [negb]; [|fatal 1].
  destruct (head w) as [|cl] eqn:Hhead; [fatal 2|].
  destruct cl as [|c cl]; [fatal 1|].
  destruct Hfail as [Hf|[Hf|Hf]]; try discriminate.
  destruct (ParseUint (String c cl)) as [sz [e|]]; [fatal 1|].
  rewrite Hf. fatal 1.
Qed.

Lemma C5_fatal_before_workers_witness :
  main_pc (main (Flags "http://example.org/f" "f" false 10)
             (World StatNotExist true HeadFailed true)
             [EvWorker 0 NewRequestErr; EvAggregator; EvMain]) = MExited 2.
Proof.
  exact (proj1 (proj1 (proj2 (proj2 (proj2 (proj2 (proj2 (proj2 (proj2
           (C5_fatal_before_workers
              (Flags "http://example.org/f" "f" false 10)
              (World StatNotExist true HeadFailed true)
              [EvWorker 0 NewRequestErr; EvAggregator; EvMain]
              eq_refl (or_introl eq_refl))))))))) eq_refl eq_refl)).
Defined.

(** ** The end of the run *)

(** The channel is closed only after every worker has returned. *)
Lemma closed_after_workers chunkSize size n sched :
  let s := run chunkSize size n sched in
  status_closed s = true -> forallb is_done (workers s) = true.
Proof.
  intros s Hc. pose proof (invariant_run chunkSize size n sched) as I.
  apply (inv_wait _ _ _ _ I). apply (inv_closed _ _ _ _ I). exact Hc.
Qed.

(** When the progress goroutine is scheduled between [close(status)] and
    the return of [main], it prints [Download complete]. *)
Lemma complete_when_scheduled :
  output
    (main (Flags "http://example.org/f" "f" false 1)
       (World StatNotExist true (HeadResponse "1") true)
       [EvWorker 0 NewRequestErr;
        EvWorker 0 (Sent (Resp 206 [Byte.x00] None));
        EvWorker 0 NewRequestErr; EvAggregator; EvWorker 0 NewRequestErr;
        EvMain; EvMain; EvAggregator; EvMain])
  = [Progress 10485760 1; DownloadComplete].
Proof. reflexivity. Qed.

(** C6 fails on the code: nothing makes [main] wait for the progress
    goroutine.  For a resource of one byte and one worker, in the schedule
    where [main] runs its three deferred calls as soon as the worker has
    returned, the channel is closed after the worker has returned and the
    process exits with the last notification still in the channel and
    without [Download complete] having been printed. *)
Theorem C6_exit_before_complete :
  let s :=
    main (Flags "http://example.org/f" "f" false 1)
      (World StatNotExist true (HeadResponse "1") true)
      [EvWorker 0 NewRequestErr;
       EvWorker 0 (Sent (Resp 206 [Byte.x00] None));
       EvWorker 0 NewRequestErr; EvWorker 0 NewRequestErr;
       EvMain; EvMain; EvMain; EvAggregator] in
  workers s = [WDone]
  /\ status_closed s = true
  /\ main_pc s = MExited 0
  /\ status s = [10485760]
  /\ aggregator_done s = false
  /\ output s = []
  /\ DownloadComplete ∉ output s.
Proof.
  cbv zeta. repeat split; try reflexivity.
  intros H. vm_compute in H. inversion H.
Qed.

(** ** Two runs in full *)

Example ParseUint_examples :
  ParseUint "25" = (25, None)
  /\ ParseUint "18446744073709551615" = (18446744073709551615, None)
  /\ ParseUint "18446744073709551616" = (18446744073709551615, Some ErrRange)
  /\ ParseUint "12a" = (0, Some ErrSyntax)
  /\ ParseUint "" = (0, Some ErrSyntax).
Proof. repeat split; reflexivity. Qed.

(** Three workers, 25 bytes in chunks of 10: the GET of worker 0 fails, the
    other two drain the allocator; nothing is written or notified for the
    first chunk, the exit status is 0. *)
Example one_worker_fails :
  let s :=
    run 10 25 3
      [EvWorker 0 NewRequestErr; EvWorker 1 NewRequestErr;
       EvWorker 2 NewRequestErr; EvWorker 0 (Sent DoErr);
       EvWorker 1 (Sent (Resp 206 (replicate 10 Byte.x61) None));
       EvWorker 2 (Sent (Resp 206 (replicate 5 Byte.x62) None));
       EvWorker 1 NewRequestErr; EvAggregator; EvWorker 2 NewRequestErr;
       EvAggregator; EvWorker 1 NewRequestErr; EvWorker 2 NewRequestErr;
       EvMain; EvMain; EvAggregator; EvMain] in
  (issued s).*2 = [Range 0 0 9; Range 1 10 19; Range 2 20 29]
  /\ fetched s = [0; 1; 2; 3; 4]
  /\ failed s = [0%nat]
  /\ notes s = [(1%nat, 10); (2%nat, 10)]
  /\ (fun w => (w_off w, length (w_data w))) <$> file s
     = [(10, 10%nat); (20, 5%nat)]
  /\ output s
     = [LogWhileDownloading; LogErrorDownloading; Progress 10 25;
        Progress 20 25; DownloadComplete]
  /\ main_pc s = MExited 0.
Proof. cbv zeta. repeat split; reflexivity. Qed.

(** * Part III: the rest of the program *)

(** ** Reading and printing sizes *)

Lemma digit_range c d : digit c = Some d -> 0 <= d <= 9.
Proof.
  unfold digit. destruct (_ && _) eqn:E; [|discriminate].
  intros [= <-]. apply andb_prop in E as [E1 E2]. lia.
Qed.

Lemma digit_of_digit r :
  0 <= r <= 9 -> digit (Ascii.ascii_of_nat (48 + Z.to_nat r)) = Some r.
Proof.
  intros H.
  assert (E : r = 0 \/ r = 1 \/ r = 2 \/ r = 3 \/ r = 4 \/ r = 5 \/ r = 6
              \/ r = 7 \/ r = 8 \/ r = 9) by lia.
  repeat (destruct E as [->|E]; [reflexivity|]). subst r. reflexivity.
Qed.

Lemma digits_value_ge s acc n :
  0 <= acc -> digits_value s acc = Some n -> acc <= n.
Proof.
  revert acc. induction s as [|c s IH]; intros acc Hacc; cbn.
  - intros [= <-]. lia.
  - destruct (digit c) as [d|] eqn:Hd; [|discriminate].
    apply digit_range in Hd. intros H. apply IH in H; lia.
Qed.

Lemma digits_value_some s acc acc' :
  is_Some (digits_value s acc) -> is_Some (digits_value s acc').
Proof.
  revert acc acc'. induction s as [|c s IH]; intros acc acc'; cbn.
  - intros _. eexists. reflexivity.
  - destruct (digit c) as [d|]; [apply IH | intros [x [=]]].
Qed.

Lemma ParseUint_loop_spec s acc n :
  0 <= acc <= maxUint64 ->
  (ParseUint_loop s acc = (n, None)
   <-> digits_value s acc = Some n /\ n <= maxUint64).
Proof.
  revert acc. induction s as [|c s IH]; intros acc Hacc; cbn.
  - split.
    + intros [= <-]. split; [reflexivity | lia].
    + intros [[= <-] _]. reflexivity.
  - destruct (digit c) as [d|] eqn:Hd.
    2:{ split; [discriminate | intros [[=] _]]. }
    pose proof (digit_range _ _ Hd) as Hr.
    assert (Hmax : maxUint64 = 18446744073709551615) by reflexivity.
    destruct (Z.leb_spec (maxUint64 / 10 + 1) acc) as [Hcut|Hcut].
    { split; [discriminate|]. intros [Hv Hn]. exfalso.
      apply digits_value_ge in Hv; [|lia].
      rewrite Hmax in *. change (18446744073709551615 / 10) with
        1844674407370955161 in Hcut. lia. }
    destruct (Z.ltb_spec maxUint64 (acc * 10 + d)) as [Hov|Hov].
    { split; [discriminate|]. intros [Hv Hn]. exfalso.
      apply digits_value_ge in Hv; lia. }
    apply IH. lia.
Qed.

Lemma ParseUint_spec s n :
  ParseUint s = (n, None) <-> decimal s = Some n /\ n <= maxUint64.
Proof.
  destruct s as [|c s].
  - cbn. split; [discriminate | intros [[=] _]].
  - unfold ParseUint, decimal. apply ParseUint_loop_spec.
    split; [lia | discriminate].
Qed.

Lemma decimal_nonneg s n : decimal s = Some n -> 0 <= n.
Proof.
  destruct s as [|c s]; [discriminate|]. unfold decimal.
  apply digits_value_ge. lia.
Qed.

(** What a size returned without error tells about the exchange. *)
Lemma GetFileSize_Ret (w : world) (size : Z) (reqs : list request) :
  GetFileSize w = (Ret (size, None), reqs) ->
  url_ok w = true /\ reqs = [Head]
  /\ exists contentlength,
       head w = HeadResponse contentlength
       /\ decimal contentlength = Some size
       /\ 0 <= size <= maxUint64.
Proof.
  unfold GetFileSize. destruct (url_ok w); cbn [negb]; [|discriminate].
  destruct (head w) as [|cl]; [discriminate|].
  destruct cl as [|c cl]; [discriminate|].
  cbv beta iota. pose proof (ParseUint_spec (String c cl) size) as PS.
  destruct (ParseUint (String c cl)) as [sz oe].
  intros [= -> -> <-]. split; [reflexivity|]. split; [reflexivity|].
  exists (String c cl). split; [reflexivity|].
  destruct PS as [PS _]. destruct (PS eq_refl) as [H1 H2].
  split; [exact H1|]. split; [exact (decimal_nonneg _ _ H1) | exact H2].
Qed.

(** X1: [GetFileSize] returns a size without error exactly when the URL is
    well formed and the [Content-Length] of the response is a non-empty
    string of decimal digits (leading zeros allowed, no sign, no blank)
    whose value is at most [2^64 - 1]; the size is that value and exactly
    one HEAD request was sent. *)
Theorem GetFileSize_spec (w : world) (size : Z) (reqs : list request) :
  GetFileSize w = (Ret (size, None), reqs)
  <-> url_ok w = true /\ reqs = [Head]
      /\ exists contentlength,
           head w = HeadResponse contentlength
           /\ decimal contentlength = Some size
           /\ 0 <= size <= maxUint64.
Proof.
  split; [apply GetFileSize_Ret|].
  intros (Hurl & -> & cl & Hhead & H1 & _ & H2).
  unfold GetFileSize. rewrite Hurl, Hhead. cbn [negb].
  destruct cl as [|c cl]; [discriminate H1|].
  cbv beta iota. pose proof (ParseUint_spec (String c cl) size) as [_ PS].
  rewrite (PS (conj H1 H2)). reflexivity.
Qed.

(** Whatever went wrong, the value [ParseUint] returns with an error is 0
    or the largest [uint64]. *)
Lemma ParseUint_loop_error s acc n e :
  ParseUint_loop s acc = (n, Some e) ->
  (n = 0 /\ e = ErrSyntax) \/ (n = maxUint64 /\ e = ErrRange).
Proof.
  revert acc. induction s as [|c s IH]; intros acc; cbn; [discriminate|].
  destruct (digit c) as [d|]; [|intros [= <- <-]; left; split; reflexivity].
  destruct (_ <=? acc); [intros [= <- <-]; right; split; reflexivity|].
  destruct (maxUint64 <? _); [intros [= <- <-]; right; split; reflexivity|].
  apply IH.
Qed.

Lemma format_digits_value fuel n acc :
  0 <= n < 10 ^ Z.of_nat fuel ->
  digits_value (format_digits fuel n acc) 0 = digits_value acc n.
Proof.
  revert n acc. induction fuel as [|fuel IH]; intros n acc Hn.
  - cbn in *. replace n with 0 by lia. reflexivity.
  - cbn [format_digits].
    pose proof (Z.mod_pos_bound n 10 ltac:(lia)) as Hm.
    pose proof (Z.div_mod n 10 ltac:(lia)) as Hd.
    assert (Hstep : forall a,
      digits_value
        (String (Ascii.ascii_of_nat (48 + Z.to_nat (n mod 10))) acc) a
      = digits_value acc (a * 10 + n mod 10)).
    { intros a. cbn [digits_value]. rewrite digit_of_digit by lia.
      reflexivity. }
    destruct (Z.ltb_spec n 10) as [Hlt|Hge].
    + rewrite Hstep. f_equal. rewrite Z.mod_small by lia. lia.
    + rewrite IH.
      * rewrite Hstep. f_equal. lia.
      * rewrite Nat2Z.inj_succ, Z.pow_succ_r in Hn by lia.
        split; [apply Z.div_pos; lia|].
        apply Z.div_lt_upper_bound; lia.
Qed.

Lemma format_digits_nonempty fuel n acc :
  format_digits (S fuel) n acc <> EmptyString.
Proof.
  revert n acc. induction fuel as [|fuel IH]; intros n acc.
  - cbn. destruct (n <? 10); discriminate.
  - cbn [format_digits]. destruct (n <? 10); [discriminate|].
    apply IH.
Qed.

Lemma decimal_FormatUint n :
  U64.in_range n -> decimal (FormatUint n) = Some n.
Proof.
  intros [H0 H1]. unfold FormatUint, decimal.
  pose proof (format_digits_nonempty 19 n EmptyString) as Hne.
  destruct (format_digits 20 n EmptyString) as [|c s] eqn:E; [congruence|].
  rewrite <- E, format_digits_value; [reflexivity|].
  split; [exact H0|]. unfold U64.modulus in H1.
  eapply Z.lt_trans; [exact H1|]. reflexivity.
Qed.

(** X2: what the program prints with [%d] it reads back with
    [strconv.ParseUint]: for every [uint64] [n], parsing the decimal form of
    [n] gives [n] and no error. *)
Theorem ParseUint_FormatUint (n : Z) :
  U64.in_range n -> ParseUint (FormatUint n) = (n, None).
Proof.
  intros H. apply ParseUint_spec. split; [apply decimal_FormatUint, H|].
  destruct H as [_ H]. unfold maxUint64. lia.
Qed.

Lemma ParseUint_FormatUint_witness :
  ParseUint (FormatUint 18446744073709551615) = (18446744073709551615, None).
Proof.
  apply ParseUint_FormatUint. split; [discriminate | reflexivity].
Defined.

Lemma append_nil (s : string) : ("" +:+ s)%string = s.
Proof. reflexivity. Qed.

Lemma append_cons c (s t : string) :
  (String c s +:+ t)%string = String c (s +:+ t)%string.
Proof. reflexivity. Qed.

Lemma digits_split s1 s2 t1 t2 :
  is_Some (digits_value s1 0) -> is_Some (digits_value s2 0) ->
  (s1 +:+ "-" +:+ t1 = s2 +:+ "-" +:+ t2)%string ->
  s1 = s2 /\ t1 = t2.
Proof.
  revert s2. induction s1 as [|c s1 IH]; intros [|c2 s2] H1 H2 E;
    repeat (rewrite append_cons in E || rewrite append_nil in E);
    cbn [digits_value] in H1, H2.
  - injection E as ->. split; reflexivity.
  - injection E as <- _. destruct H2 as [x H2]. discriminate H2.
  - injection E as -> _. destruct H1 as [x H1]. discriminate H1.
  - injection E as <- E.
    destruct (digit c) as [d|]; [|destruct H1 as [x H1]; discriminate H1].
    destruct (IH s2) as [-> ->];
      [ eapply digits_value_some, H1 | eapply digits_value_some, H2
      | repeat (rewrite append_cons || rewrite append_nil); exact E |].
    split; reflexivity.
Qed.

(** X3: the [Range] header names its range without ambiguity: two requests
    with the same header value ask for the same first and last byte. *)
Theorem RangeHeader_inj (a b a' b' : Z) :
  U64.in_range a -> U64.in_range b -> U64.in_range a' -> U64.in_range b' ->
  RangeHeader a b = RangeHeader a' b' -> a = a' /\ b = b'.
Proof.
  intros Ha Hb Ha' Hb' E. unfold RangeHeader in E.
  repeat (rewrite append_cons in E || rewrite append_nil in E).
  injection E as E.
  pose proof (decimal_FormatUint a Ha) as Da.
  pose proof (decimal_FormatUint a' Ha') as Da'.
  pose proof (decimal_FormatUint b Hb) as Db.
  pose proof (decimal_FormatUint b' Hb') as Db'.
  assert (Sa : is_Some (digits_value (FormatUint a) 0)).
  { unfold decimal in Da. destruct (FormatUint a); [discriminate|]. eauto. }
  assert (Sa' : is_Some (digits_value (FormatUint a') 0)).
  { unfold decimal in Da'. destruct (FormatUint a'); [discriminate|]. eauto. }
  destruct (digits_split _ _ _ _ Sa Sa' E) as [Ea Eb].
  rewrite Ea in Da. rewrite Eb in Db. split; congruence.
Qed.

Lemma RangeHeader_inj_witness :
  RangeHeader 0 9 = "bytes=0-9"%string /\ (0 = 0 /\ 9 = 9).
Proof.
  split; [reflexivity|].
  apply (RangeHeader_inj 0 9 0 9); try (split; [discriminate | reflexivity]).
  reflexivity.
Defined.

(** ** The progress goroutine *)

Lemma int_sum_snoc l v : int_sum (l ++ [v]) = U64.int_add (int_sum l) v.
Proof. unfold int_sum. rewrite foldl_app. reflexivity. Qed.

Lemma running_snoc acc l v :
  running acc (l ++ [v])
  = running acc l ++ [U64.int_add (foldl U64.int_add acc l) v].
Proof.
  revert acc. induction l as [|x l IH]; intros acc; [reflexivity|].
  cbn [running app foldl]. rewrite IH. reflexivity.
Qed.

Lemma progress_totals_app l1 l2 :
  progress_totals (l1 ++ l2) = progress_totals l1 ++ progress_totals l2.
Proof. unfold progress_totals. apply bind_app. Qed.

Lemma worker_errors_app l1 l2 :
  worker_errors (l1 ++ l2) = (worker_errors l1 + worker_errors l2)%nat.
Proof. unfold worker_errors. rewrite filter_app, length_app. reflexivity. Qed.

(** [Download] logs at most its own line. *)
Lemma Download_lines a data err lines :
  Download a = (data, err, lines) ->
  lines = [] \/ lines = [LogWhileDownloading].
Proof.
  destruct a as [|code body cut]; cbn.
  - intros [= _ _ <-]. right. reflexivity.
  - destruct (Copy body cut). intros [= _ _ <-]. left. reflexivity.
Qed.

Local Ltac other_lines :=
  let Hin := fresh "Hin" in
  intros Hin;
  repeat (apply elem_of_cons in Hin as [Hin|Hin]; [discriminate Hin|]);
  apply elem_of_nil in Hin; exact Hin.

Section Progress.

Variable chunkSize : Z.
Variable size : Z.
Variable n : nat.

Lemma capacity_trans s s' :
  (length (status s) <= status_cap)%nat -> trans chunkSize size s s' ->
  (length (status s') <= status_cap)%nat.
Proof.
  intros H T. destruct T; state_simpl; try exact H.
  - rewrite length_app. cbn. lia.
  - match goal with E : status _ = _ |- _ => rewrite E in H end.
    cbn in H. lia.
Qed.

Lemma accounted_trans s s' :
  accounted s -> trans chunkSize size s s' -> accounted s'.
Proof.
  intros (received & Hn & Ht & Hp) T. unfold accounted.
  destruct T as [i c' H HN|i c' rg H HN|i t rg H|i t rg a data lines H HD
                |i t rg a data lines H HD|i t v H Hlen|v rest Ha Hst
                |Ha Hst Hclosed|Hmn Hall|Hmn|Hmn];
    state_simpl;
    try (exists received; split; [exact Hn|split; [exact Ht|exact Hp]]).
  - exists received. split; [exact Hn|]. split; [exact Ht|].
    rewrite progress_totals_app, Hp. cbn. apply app_nil_r.
  - exists received. split; [exact Hn|]. split; [exact Ht|].
    rewrite progress_totals_app, Hp.
    destruct (Download_lines _ _ _ _ HD) as [->| ->]; cbn; apply app_nil_r.
  - exists received. split; [|split; [exact Ht|exact Hp]].
    rewrite fmap_app, Hn, <- app_assoc. reflexivity.
  - exists (received ++ [v]). rewrite Hst in Hn. split; [|split].
    + rewrite Hn, <- app_assoc. reflexivity.
    + rewrite int_sum_snoc, Ht. reflexivity.
    + rewrite progress_totals_app, Hp, running_snoc. cbn.
      rewrite Ht. reflexivity.
  - exists received. split; [exact Hn|]. split; [exact Ht|].
    rewrite progress_totals_app, Hp. cbn. apply app_nil_r.
Qed.

Lemma signalled_trans s s' :
  invariant chunkSize size n s -> signalled s ->
  trans chunkSize size s s' -> signalled s'.
Proof.
  intros I [S0 S1] T.
  assert (Hidle : aggregator_done s = true ->
                  forall (i : nat) w, workers s !! i = Some w -> w = WDone).
  { intros Ha i w Hw.
    apply (forallb_is_done_lookup (workers s) i); [|exact Hw].
    apply (inv_wait _ _ _ _ I).
    apply (inv_closed _ _ _ _ I), (inv_aggregator _ _ _ _ I), Ha. }
  assert (Hfresh : forall lines,
            aggregator_done s = false -> DownloadComplete ∉ lines ->
            DownloadComplete ∉ output s ++ lines).
  { intros lines Ha Hl [Hin|Hin]%elem_of_app; [exact (S0 Ha Hin) | exact (Hl Hin)]. }
  unfold signalled.
  destruct T as [i c' H HN|i c' rg H HN|i t rg H|i t rg a data lines H HD
                |i t rg a data lines H HD|i t v H Hlen|v rest Ha Hst
                |Ha Hst Hclosed|Hmn Hall|Hmn|Hmn];
    state_simpl; try (split; assumption);
    try (split;
         [ intros Ha; first [exact (S0 Ha) | apply (Hfresh _ Ha); other_lines]
         | intros Ha; specialize (Hidle Ha _ _ H); discriminate Hidle ]).
  - split.
    + intros Ha. apply (Hfresh _ Ha).
      destruct (Download_lines _ _ _ _ HD) as [->| ->]; other_lines.
    + intros Ha. specialize (Hidle Ha _ _ H). discriminate Hidle.
  - split; [|congruence]. intros _. apply (Hfresh _ Ha). other_lines.
  - split; [discriminate|]. intros _. split; [exact Hst|].
    exists (output s). split; [reflexivity | exact (S0 Ha)].
Qed.

Lemma run_accounted sched :
  let s := run chunkSize size n sched in
  (length (status s) <= status_cap)%nat /\ accounted s /\ signalled s.
Proof.
  cbv zeta. unfold run.
  assert (H : invariant chunkSize size n
                (exec chunkSize size (init n [] [Head]) sched)
              /\ (length (status (exec chunkSize size (init n [] [Head]) sched))
                  <= status_cap)%nat
              /\ accounted (exec chunkSize size (init n [] [Head]) sched)
              /\ signalled (exec chunkSize size (init n [] [Head]) sched)).
  { apply exec_ind.
    - split; [apply invariant_init; reflexivity|].
      split; [cbn; lia|]. split.
      + exists []. repeat split; reflexivity.
      + split; [intros _; cbn; other_lines | discriminate].
    - intros s1 s2 (I & C & A & S) T. split; [|split; [|split]].
      + exact (invariant_trans _ _ _ _ _ I T).
      + exact (capacity_trans _ _ C T).
      + exact (accounted_trans _ _ A T).
      + exact (signalled_trans _ _ I S T). }
  exact (proj2 H).
Qed.

End Progress.

(** X4: in every reachable state the channel holds at most one
    notification, the notifications sent are those received followed by
    those in the channel (first in, first out), [totalDownloaded] is the
    [int] sum of the received ones, and the progress lines printed carry its
    successive values. *)
Theorem progress_accounting (chunkSize size : Z) (n : nat)
    (sched : list event) :
  let s := run chunkSize size n sched in
  (length (status s) <= 1)%nat
  /\ exists received,
       (notes s).*2 = received ++ status s
       /\ totalDownloaded s = int_sum received
       /\ progress_totals (output s) = running 0 received.
Proof.
  intros s. destruct (run_accounted chunkSize size n sched) as (C & A & _).
  split; [exact C | exact A].
Qed.

(** X5: [Download complete] is in the output exactly when the progress
    goroutine has left its loop; it is then the last line and printed once,
    the channel is closed and empty, every worker has returned, and every
    notification sent has been added to [totalDownloaded] and reported. *)
Theorem complete_is_final (chunkSize size : Z) (n : nat)
    (sched : list event) :
  let s := run chunkSize size n sched in
  (DownloadComplete ∈ output s <-> aggregator_done s = true)
  /\ (aggregator_done s = true ->
      (exists out,
         output s = out ++ [DownloadComplete] /\ DownloadComplete ∉ out)
      /\ status s = [] /\ status_closed s = true
      /\ forallb is_done (workers s) = true
      /\ totalDownloaded s = int_sum (notes s).*2
      /\ progress_totals (output s) = running 0 (notes s).*2).
Proof.
  intros s.
  destruct (run_accounted chunkSize size n sched) as (_ & A & S0 & S1).
  pose proof (invariant_run chunkSize size n sched) as I.
  fold s in A, S0, S1, I.
  split.
  - split.
    + intros Hin. destruct (aggregator_done s) eqn:Ha; [reflexivity|].
      destruct (S0 eq_refl Hin).
    + intros Ha. destruct (S1 Ha) as (_ & out & -> & _).
      apply elem_of_app. right. apply list_elem_of_here.
  - intros Ha. destruct (S1 Ha) as (Hst & Hout).
    destruct A as (received & Hn & Ht & Hp).
    rewrite Hst, app_nil_r in Hn. subst received.
    pose proof (inv_aggregator _ _ _ _ I Ha) as Hc.
    split; [exact Hout|]. split; [exact Hst|]. split; [exact Hc|].
    split; [|split; assumption].
    apply (inv_wait _ _ _ _ I), (inv_closed _ _ _ _ I), Hc.
Qed.

(** ** Totals, error lines and counts *)

Lemma int_add_small a b :
  0 <= a + b < U64.half -> U64.int_add a b = a + b.
Proof.
  intros H. unfold U64.int_add.
  rewrite wrap_small by (unfold U64.in_range, U64.half, U64.modulus in *; lia).
  apply to_int_small, H.
Qed.

Lemma running_const c l :
  (forall v, v ∈ l -> v = c) -> 0 <= c ->
  Z.of_nat (length l) * c < U64.half ->
  running 0 l = (fun j : nat => (Z.of_nat j + 1) * c) <$> seq 0 (length l)
  /\ int_sum l = Z.of_nat (length l) * c.
Proof.
  intros Hall Hc. induction l as [|v l IH] using rev_ind; intros Hlen.
  - split; reflexivity.
  - rewrite length_app in *. cbn [length] in *. rewrite Nat.add_1_r in *.
    assert (Hv : v = c).
    { apply Hall, elem_of_app. right. apply list_elem_of_here. }
    destruct IH as [IH1 IH2].
    { intros x Hx. apply Hall, elem_of_app. left. exact Hx. }
    { nia. }
    unfold int_sum in IH2.
    rewrite running_snoc, int_sum_snoc, seq_snoc, fmap_app, IH1. cbn.
    unfold int_sum. rewrite IH2, Hv, int_add_small by nia.
    split; [f_equal; f_equal|]; lia.
Qed.

(** X6: when neither the cursor arithmetic nor the sum of the chunk sizes
    wraps, [totalDownloaded] is always a whole number of chunk sizes, at
    most one per chunk: the [j]-th progress line reports [j * chunkSize]
    bytes out of [size], and at most one notification sent has not been
    counted yet. *)
Theorem progress_steps (chunkSize size : Z) (n : nat) (sched : list event) :
  0 < chunkSize -> U64.in_range size -> (1 <= n)%nat ->
  fits chunkSize size n -> chunks chunkSize size * chunkSize < U64.half ->
  let s := run chunkSize size n sched in
  exists k : nat,
    Z.of_nat k <= chunks chunkSize size
    /\ totalDownloaded s = Z.of_nat k * chunkSize
    /\ progress_totals (output s)
       = (fun j : nat => (Z.of_nat j + 1) * chunkSize) <$> seq 0 k
    /\ (k <= length (notes s) <= k + 1)%nat.
Proof.
  intros Hc Hs Hn Hf Hhalf s.
  pose proof (invariant_run chunkSize size n sched) as I. fold s in I.
  destruct (run_accounted chunkSize size n sched)
    as (Hcap & (received & Hnotes & Htot & Hprog) & _).
  unfold status_cap in Hcap.
  fold s in Hcap, Hnotes, Htot, Hprog.
  assert (Hm : 0 <= chunks chunkSize size) by (apply chunks_nonneg; assumption).
  assert (Hlen : length (notes s) = (length received + length (status s))%nat).
  { rewrite <- (length_fmap snd), Hnotes, length_app. reflexivity. }
  assert (Hiss : Z.of_nat (length (notes s)) <= chunks chunkSize size).
  { pose proof (inv_tickets _ _ _ _ I) as P. apply Permutation_length in P.
    rewrite !length_app, !length_fmap in P.
    assert (E : issued s = nth_chunk chunkSize <$>
                  seq 0 (min (length (fetched s))
                           (Z.to_nat (chunks chunkSize size))))
      by (eapply run_issued; eassumption).
    apply (f_equal length) in E. rewrite length_fmap, length_seq in E. lia. }
  assert (Hval : forall v, v ∈ received -> v = chunkSize).
  { intros v Hv.
    assert (Hin : v ∈ (notes s).*2)
      by (rewrite Hnotes; apply elem_of_app; left; exact Hv).
    apply list_elem_of_fmap in Hin as ([t v'] & -> & Hin). cbn.
    destruct (inv_notes _ _ _ _ I t v' Hin) as (r & Hr & ->).
    rewrite (issued_Downloaded _ _ _ _ _ _ I Hr).
    assert (Ht : r = range_of chunkSize (Z.of_nat t)
                 /\ Z.of_nat t < chunks chunkSize size)
      by (eapply run_issued_chunk; eassumption).
    destruct Ht as [_ Ht].
    assert (chunkSize < U64.half) by nia.
    rewrite wrap_small
      by (unfold U64.in_range, U64.half, U64.modulus in *; lia).
    apply to_int_small. lia. }
  destruct (running_const chunkSize received Hval ltac:(lia) ltac:(nia))
    as [R1 R2].
  exists (length received).
  split; [lia|]. split; [rewrite Htot; exact R2|].
  split; [rewrite Hprog; exact R1 | lia].
Qed.

Lemma progress_steps_witness :
  exists k : nat,
    Z.of_nat k <= chunks 10 25
    /\ totalDownloaded
         (run 10 25 1
            [EvWorker 0 NewRequestErr; EvWorker 0 (Sent (Resp 206 [] None));
             EvWorker 0 NewRequestErr; EvAggregator]) = Z.of_nat k * 10
    /\ progress_totals
         (output
            (run 10 25 1
               [EvWorker 0 NewRequestErr; EvWorker 0 (Sent (Resp 206 [] None));
                EvWorker 0 NewRequestErr; EvAggregator]))
       = (fun j : nat => (Z.of_nat j + 1) * 10) <$> seq 0 k
    /\ (k <= length
              (notes
                 (run 10 25 1
                    [EvWorker 0 NewRequestErr;
                     EvWorker 0 (Sent (Resp 206 [] None));
                     EvWorker 0 NewRequestErr; EvAggregator])) <= k + 1)%nat.
Proof.
  refine (progress_steps 10 25 1 _ _ _ _ _ _).
  - lia.
  - split; [discriminate | reflexivity].
  - lia.
  - vm_compute. reflexivity.
  - vm_compute. reflexivity.
Defined.

Section Counts.

Variable chunkSize : Z.
Variable size : Z.
Variable n : nat.

Lemma errors_trans s s' :
  worker_errors (output s) = length (failed s) ->
  trans chunkSize size s s' ->
  worker_errors (output s') = length (failed s').
Proof.
  intros H T.
  destruct T as [i c' Hw HN|i c' rg Hw HN|i t rg Hw|i t rg a data lines Hw HD
                |i t rg a data lines Hw HD|i t v Hw Hlen|v rest Ha Hst
                |Ha Hst Hclosed|Hmn Hall|Hmn|Hmn];
    state_simpl; try exact H;
    rewrite ?worker_errors_app, ?length_app, H; try reflexivity;
    try apply Nat.add_0_r.
  destruct (Download_lines _ _ _ _ HD) as [->| ->]; reflexivity.
Qed.

Lemma issued_le_fetched s :
  invariant chunkSize size n s -> (length (issued s) <= length (fetched s))%nat.
Proof.
  intros I. rewrite <- (length_fmap fst), (inv_issued _ _ _ _ I).
  pose proof (sublist_length _ _
                (chunk_at_tickets chunkSize size
                   (seq 0 (length (fetched s))))) as L.
  rewrite length_seq in L. exact L.
Qed.

End Counts.

(** X7: every failed claim is logged once by its worker, and workers log
    nothing else of that kind: the number of [Error Downloading] lines and
    of request-construction errors printed is the number of failed
    claims. *)
Theorem errors_logged (chunkSize size : Z) (n : nat) (sched : list event) :
  worker_errors (output (run chunkSize size n sched))
  = length (failed (run chunkSize size n sched)).
Proof.
  unfold run. apply exec_ind; [reflexivity|].
  intros s1 s2. apply errors_trans.
Qed.

(** X8: a worker fails at most once, so at most [n] claims fail; failures
    do not change the exit status.  When the process has exited the status
    is 0 and the channel is closed; every issued claim has either succeeded
    or failed; and every worker that did not fail made exactly one fetch
    that found the allocator exhausted. *)
Theorem failures_are_silent (chunkSize size : Z) (n : nat)
    (sched : list event) :
  let s := run chunkSize size n sched in
  (length (failed s) <= n)%nat
  /\ (exited s ->
      main_pc s = MExited 0 /\ status_closed s = true
      /\ length (issued s) = (length (succeeded s) + length (failed s))%nat
      /\ (length (fetched s) + length (failed s)
          = length (issued s) + n)%nat).
Proof.
  intros s. pose proof (invariant_run chunkSize size n sched) as I. fold s in I.
  pose proof (inv_count _ _ _ _ I) as C.
  pose proof (issued_le_fetched _ _ _ _ I) as L.
  pose proof (total_live_bounds (workers s)) as B.
  split; [lia|].
  intros Hex. pose proof (exited_all_done _ _ _ _ I Hex) as Hall.
  destruct Hex as [code Hm].
  split; [rewrite Hm; f_equal; exact (inv_exit _ _ _ _ I code Hm)|].
  split.
  { destruct (status_closed s) eqn:Hc; [reflexivity|].
    destruct (inv_open _ _ _ _ I Hc) as [E|E]; rewrite Hm in E; discriminate. }
  rewrite (total_live_done _ Hall) in C.
  split; [|lia].
  pose proof (inv_tickets _ _ _ _ I) as Pt.
  pose proof (inv_succeeded _ _ _ _ I) as Ps.
  unfold all_held in Pt. unfold all_sending in Ps.
  rewrite (bind_all_done held _ eq_refl Hall), app_nil_r in Pt.
  rewrite (bind_all_done sending _ eq_refl Hall), app_nil_r in Ps.
  apply Permutation_length in Pt, Ps.
  rewrite length_app, !length_fmap in Pt. rewrite length_fmap in Ps. lia.
Qed.

(** ** What is requested and what is written *)

Lemma Download_ok_data a data lines :
  Download a = (data, false, lines) -> exists d, data = [d].
Proof.
  destruct a as [|code body cut]; cbn; [discriminate|].
  destruct (Copy body cut) as [d e]. intros [= <- _ _]. eauto.
Qed.

(** Every download that returned nil has written its payload. *)
Lemma succeeded_written chunkSize size n sched :
  sublist (succeeded (run chunkSize size n sched))
    (w_ticket <$> file (run chunkSize size n sched)).
Proof.
  unfold run. apply exec_ind; [constructor|].
  intros s1 s2 H T.
  destruct T as [i c' Hw HN|i c' rg Hw HN|i t rg Hw|i t rg a data lines Hw HD
                |i t rg a data lines Hw HD|i t v Hw Hlen|v rest Ha Hst
                |Ha Hst Hclosed|Hmn Hall|Hmn|Hmn];
    state_simpl; try exact H.
  - rewrite fmap_app. apply sublist_inserts_r, H.
  - destruct (Download_ok_data _ _ _ HD) as [d ->].
    rewrite fmap_app. apply sublist_app; [exact H | reflexivity].
Qed.

Lemma get_ranges_tickets (f : nat -> Z * Z) reqs :
  (forall t a b, Get t a b ∈ reqs -> (a, b) = f t) ->
  get_ranges reqs = f <$> get_tickets reqs.
Proof.
  induction reqs as [|q reqs IH]; intros H; [reflexivity|].
  unfold get_ranges, get_tickets in *. rewrite !bind_cons, fmap_app.
  rewrite IH by (intros t a b Hin; apply H, list_elem_of_further, Hin).
  f_equal. destruct q as [|t a b]; [reflexivity|].
  cbn. rewrite (H t a b) by apply list_elem_of_here. reflexivity.
Qed.

Lemma file_at_Some log pos b :
  file_at log pos = Some b -> exists w, w ∈ log /\ byte_of w pos = Some b.
Proof.
  induction log as [|w log IH]; cbn; [discriminate|].
  destruct (file_at log pos) as [b'|].
  - intros [= <-]. destruct (IH eq_refl) as (w' & Hin & E).
    exists w'. split; [apply list_elem_of_further, Hin | exact E].
  - intros E. exists w. split; [apply list_elem_of_here | exact E].
Qed.

Lemma file_at_None log pos :
  file_at log pos = None -> forall w, w ∈ log -> byte_of w pos = None.
Proof.
  induction log as [|w log IH]; cbn; [intros _ w Hin; inversion Hin|].
  destruct (file_at log pos) as [b'|]; [discriminate|].
  intros E w' [->|Hin]%elem_of_cons; [exact E | exact (IH eq_refl w' Hin)].
Qed.

(** When all writes that reach a position agree on its byte, that is the
    byte of the file there. *)
Lemma file_at_agree log pos x :
  (forall w b, w ∈ log -> byte_of w pos = Some b -> x = Some b) ->
  (x <> None -> exists w, w ∈ log /\ byte_of w pos <> None) ->
  file_at log pos = x.
Proof.
  intros Hagree Hcover. destruct (file_at log pos) as [b|] eqn:E.
  - destruct (file_at_Some _ _ _ E) as (w & Hin & Hb).
    symmetry. exact (Hagree w b Hin Hb).
  - destruct x as [b|]; [|reflexivity].
    destruct (Hcover ltac:(discriminate)) as (w & Hin & Hb).
    destruct (Hb (file_at_None _ _ E w Hin)).
Qed.

Section Placement.

Variable chunkSize : Z.
Variable size : Z.
Variable n : nat.
Hypothesis chunkSize_pos : 0 < chunkSize.
Hypothesis size_range : U64.in_range size.
Hypothesis workers_pos : (1 <= n)%nat.
Hypothesis cursor_fits : fits chunkSize size n.

Variable sched : list event.
Hypothesis finished : exited (run chunkSize size n sched).
Hypothesis no_failure : failed (run chunkSize size n sched) = [].

Local Abbreviation m := (chunks chunkSize size).
Local Abbreviation s := (run chunkSize size n sched).

Lemma finished_issued : (issued s).*1 = seq 0 (Z.to_nat m).
Proof.
  assert (E : (issued s).*2 = expected_ranges chunkSize size).
  { eapply issued_all; eauto using invariant_run, bounded_run, exited_all_done.
    rewrite no_failure. cbn. lia. }
  assert (R : issued s = nth_chunk chunkSize <$>
                seq 0 (min (length (fetched s)) (Z.to_nat m)))
    by (eapply run_issued; eassumption).
  apply (f_equal length) in E. unfold expected_ranges in E.
  rewrite !length_fmap, length_seq in E.
  pose proof (f_equal length R) as L. rewrite length_fmap, length_seq in L.
  rewrite R, <- list_fmap_compose, <- L, E.
  apply list_fmap_id.
Qed.

Lemma finished_succeeded : succeeded s ≡ₚ seq 0 (Z.to_nat m).
Proof.
  pose proof (invariant_run chunkSize size n sched) as I.
  pose proof (exited_all_done _ _ _ _ I finished) as Hall.
  pose proof (inv_tickets _ _ _ _ I) as Pt.
  pose proof (inv_succeeded _ _ _ _ I) as Ps.
  unfold all_held in Pt. unfold all_sending in Ps.
  rewrite no_failure, (bind_all_done held _ eq_refl Hall), app_nil_r in Pt.
  rewrite (bind_all_done sending _ eq_refl Hall), app_nil_r in Ps.
  cbn [app] in Pt. rewrite Ps, <- Pt. rewrite finished_issued. reflexivity.
Qed.

Lemma finished_requests : get_tickets (http s) ≡ₚ seq 0 (Z.to_nat m).
Proof.
  pose proof (invariant_run chunkSize size n sched) as I.
  rewrite <- finished_succeeded. apply (anti_symm submseteq).
  - pose proof (inv_requested _ _ _ _ I) as R.
    rewrite no_failure in R. exact R.
  - apply sublist_submseteq.
    etransitivity; [apply succeeded_written | exact (inv_written _ _ _ _ I)].
Qed.

Lemma finished_writes : w_ticket <$> file s ≡ₚ seq 0 (Z.to_nat m).
Proof.
  pose proof (invariant_run chunkSize size n sched) as I.
  apply (anti_symm submseteq).
  - rewrite <- finished_requests.
    apply sublist_submseteq, (inv_written _ _ _ _ I).
  - rewrite <- finished_succeeded.
    apply sublist_submseteq, succeeded_written.
Qed.

Lemma finished_get_ranges :
  get_ranges (http s)
  ≡ₚ (fun r => (first r, last r)) <$> expected_ranges chunkSize size.
Proof.
  pose proof (invariant_run chunkSize size n sched) as I.
  rewrite (get_ranges_tickets
             (fun t => (first (range_of chunkSize (Z.of_nat t)),
                        last (range_of chunkSize (Z.of_nat t))))).
  - rewrite finished_requests. unfold expected_ranges.
    rewrite <- list_fmap_compose. reflexivity.
  - intros t a b Hin.
    destruct (inv_gets _ _ _ _ I t a b Hin) as (r & Hr & -> & ->).
    assert (E : r = range_of chunkSize (Z.of_nat t) /\ Z.of_nat t < m)
      by (eapply run_issued_chunk; eassumption).
    destruct E as [-> _]. reflexivity.
Qed.

Variable resource : list Byte.byte.
Hypothesis resource_size : size = Z.of_nat (length resource).
Hypothesis offsets_fit : size <= U64.half.
Hypothesis honest :
  forall w r, w ∈ file s -> (w_ticket w, r) ∈ issued s ->
    w_data w = slice resource r.

(** The byte a write of the run stores at [pos], if any, is the byte of
    the resource there. *)
Lemma write_byte w :
  w ∈ file s ->
  w_off w = Z.of_nat (w_ticket w) * chunkSize
  /\ Z.of_nat (w_ticket w) < m
  /\ forall pos,
       byte_of w pos =
         if (w_off w <=? pos) && (pos <? w_off w + chunkSize)
         then resource !! Z.to_nat pos else None.
Proof.
  intros Hw. pose proof (invariant_run chunkSize size n sched) as I.
  destruct (inv_file _ _ _ _ I w Hw) as (r & Hr & Hoff).
  pose proof (honest w r Hw Hr) as Hdata.
  assert (E : r = range_of chunkSize (Z.of_nat (w_ticket w))
              /\ Z.of_nat (w_ticket w) < m)
    by (eapply run_issued_chunk; eassumption).
  destruct E as [-> Ht].
  assert (Hlt : Z.of_nat (w_ticket w) * chunkSize < size)
    by (apply (chunks_spec chunkSize size chunkSize_pos); exact Ht).
  cbn [first range_of] in Hoff. rewrite to_int_small in Hoff by lia.
  split; [exact Hoff|]. split; [exact Ht|].
  intros pos. unfold byte_of. rewrite Hoff, Hdata. unfold slice.
  cbn [first last range_of].
  replace ((Z.of_nat (w_ticket w) + 1) * chunkSize - 1
           - Z.of_nat (w_ticket w) * chunkSize + 1) with chunkSize by ring.
  destruct (Z.leb_spec (Z.of_nat (w_ticket w) * chunkSize) pos) as [Hle|Hgt];
    [|reflexivity].
  destruct (Z.ltb_spec pos (Z.of_nat (w_ticket w) * chunkSize + chunkSize))
    as [Hin|Hout]; cbn [andb].
  - rewrite lookup_take_lt by lia. rewrite lookup_drop. f_equal. lia.
  - apply lookup_take_ge. lia.
Qed.

Lemma finished_file pos :
  file_at (file s) pos = if 0 <=? pos then resource !! Z.to_nat pos else None.
Proof.
  apply file_at_agree.
  - intros w b Hw Hb. destruct (write_byte w Hw) as (Hoff & Ht & Hbyte).
    rewrite Hbyte in Hb.
    destruct (Z.leb_spec (w_off w) pos); [|discriminate].
    destruct (Z.ltb_spec pos (w_off w + chunkSize)); [|discriminate].
    cbn in Hb. destruct (Z.leb_spec 0 pos); [exact Hb | lia].
  - intros Hx. destruct (Z.leb_spec 0 pos) as [H0|H0]; [|congruence].
    assert (Hpos : pos < size).
    { destruct (resource !! Z.to_nat pos) eqn:E; [|congruence].
      apply lookup_lt_Some in E. lia. }
    pose proof (Z.div_mod pos chunkSize ltac:(lia)) as Hdm.
    pose proof (Z.mod_pos_bound pos chunkSize chunkSize_pos) as Hmod.
    assert (Hq0 : 0 <= pos / chunkSize) by (apply Z.div_pos; lia).
    assert (Hq : pos / chunkSize < m).
    { apply (chunks_spec chunkSize size chunkSize_pos). nia. }
    assert (Hin : Z.to_nat (pos / chunkSize) ∈ w_ticket <$> file s).
    { rewrite finished_writes. apply elem_of_seq. lia. }
    apply list_elem_of_fmap in Hin as (w & Ew & Hw).
    exists w. split; [exact Hw|].
    destruct (write_byte w Hw) as (Hoff & Ht & Hbyte).
    rewrite Hbyte, Hoff, <- Ew, Z2Nat.id by lia.
    destruct (Z.leb_spec (pos / chunkSize * chunkSize) pos); [|nia].
    destruct (Z.ltb_spec pos (pos / chunkSize * chunkSize + chunkSize));
      [|nia].
    exact Hx.
Qed.

End Placement.

(** X9: when the cursor arithmetic does not wrap and no download failed,
    the GET requests of a finished run ask for every chunk exactly once:
    their ranges are, up to order, [i * chunkSize .. (i+1) * chunkSize - 1]
    for [i] from 0 to [ceil(size/chunkSize) - 1], and each download wrote
    once. *)
Theorem requests_partition (chunkSize size : Z) (n : nat)
    (sched : list event) :
  0 < chunkSize -> U64.in_range size -> (1 <= n)%nat ->
  fits chunkSize size n ->
  let s := run chunkSize size n sched in
  exited s -> failed s = [] ->
  get_ranges (http s)
  ≡ₚ (fun r => (first r, last r)) <$> expected_ranges chunkSize size
  /\ w_ticket <$> file s ≡ₚ get_tickets (http s).
Proof.
  intros Hc Hs Hn Hf s Hex Hfail. split.
  - eapply finished_get_ranges; eassumption.
  - transitivity (seq 0 (Z.to_nat (chunks chunkSize size))).
    + eapply finished_writes; eassumption.
    + symmetry. eapply finished_requests; eassumption.
Qed.

(** X10: the file is the resource.  When the cursor arithmetic does not
    wrap, the size is at most [2^63], no download failed and every response
    body was the range asked for (the bytes of the resource from [start] to
    [end], cut at its end), then in a finished run the byte written at every
    position below [size] is the byte of the resource there, and nothing is
    written at or beyond [size]. *)
Theorem file_is_resource (chunkSize size : Z) (n : nat) (sched : list event)
    (resource : list Byte.byte) :
  0 < chunkSize -> (1 <= n)%nat -> fits chunkSize size n ->
  size = Z.of_nat (length resource) -> size <= U64.half ->
  let s := run chunkSize size n sched in
  exited s -> failed s = [] ->
  (forall w r, w ∈ file s -> (w_ticket w, r) ∈ issued s ->
     w_data w = slice resource r) ->
  forall pos,
    file_at (file s) pos
    = if 0 <=? pos then resource !! Z.to_nat pos else None.
Proof.
  intros Hc Hn Hf Hsize Hhalf s Hex Hfail Hhonest pos.
  assert (Hs : U64.in_range size).
  { unfold U64.in_range, U64.half, U64.modulus in *. lia. }
  eapply finished_file; eassumption.
Qed.

Lemma requests_partition_witness :
  get_ranges
    (http
       (run 10 25 2
          [EvWorker 0 NewRequestErr; EvWorker 1 NewRequestErr;
           EvWorker 1 (Sent (Resp 206 (replicate 10 Byte.x62) None));
           EvWorker 0 (Sent (Resp 206 (replicate 10 Byte.x61) None));
           EvWorker 1 NewRequestErr; EvAggregator;
           EvWorker 0 NewRequestErr; EvAggregator;
           EvWorker 0 NewRequestErr;
           EvWorker 0 (Sent (Resp 206 (replicate 5 Byte.x63) None));
           EvWorker 0 NewRequestErr; EvAggregator;
           EvWorker 0 NewRequestErr; EvWorker 1 NewRequestErr;
           EvMain; EvMain; EvMain]))
  ≡ₚ [(0, 9); (10, 19); (20, 29)].
Proof.
  refine (proj1 (requests_partition 10 25 2 _ _ _ _ _ _ _)).
  - lia.
  - split; [discriminate | reflexivity].
  - lia.
  - vm_compute. reflexivity.
  - exists 0. reflexivity.
  - reflexivity.
Defined.

Lemma file_is_resource_witness :
  file_at
    (file
       (run 10 25 2
          [EvWorker 0 NewRequestErr; EvWorker 1 NewRequestErr;
           EvWorker 1 (Sent (Resp 206 (replicate 10 Byte.x62) None));
           EvWorker 0 (Sent (Resp 206 (replicate 10 Byte.x61) None));
           EvWorker 1 NewRequestErr; EvAggregator;
           EvWorker 0 NewRequestErr; EvAggregator;
           EvWorker 0 NewRequestErr;
           EvWorker 0 (Sent (Resp 206 (replicate 5 Byte.x63) None));
           EvWorker 0 NewRequestErr; EvAggregator;
           EvWorker 0 NewRequestErr; EvWorker 1 NewRequestErr;
           EvMain; EvMain; EvMain])) 24
  = Some Byte.x63.
Proof.
  refine (eq_trans
            (file_is_resource 10 25 2 _
               (replicate 10 Byte.x61 ++ replicate 10 Byte.x62
                ++ replicate 5 Byte.x63) _ _ _ _ _ _ _ _ 24) _).
  - lia.
  - lia.
  - vm_compute. reflexivity.
  - reflexivity.
  - vm_compute. discriminate.
  - exists 0. vm_compute. reflexivity.
  - vm_compute. reflexivity.
  - intros w r Hw Hr. apply list_elem_of_In in Hw, Hr.
    revert Hw Hr. vm_compute. intros Hw Hr.
    repeat (destruct Hw as [<-|Hw];
            [ repeat (destruct Hr as [Hr|Hr];
                      [try discriminate Hr; injection Hr as <-; reflexivity|]);
              destruct Hr
            | ]).
    destruct Hw.
  - vm_compute. reflexivity.
Defined.

(** ** No worker at all *)

Section NoWorker.

Variable chunkSize : Z.
Variable size : Z.

(** With no worker nothing is ever fetched, requested, written or sent. *)
Lemma idle_run sched :
  let s := run chunkSize size 0 sched in
  workers s = [] /\ status s = [] /\ fetched s = [] /\ issued s = []
  /\ file s = [] /\ notes s = [] /\ failed s = [] /\ http s = [Head]
  /\ totalDownloaded s = 0.
Proof.
  cbv zeta. unfold run. apply exec_ind.
  - cbn. repeat split; reflexivity.
  - intros s1 s2 (Hw & Hst & Hf & Hi & Hfile & Hn & Hfail & Hh & Ht) T.
    destruct T as [i c' H HN|i c' rg H HN|i t rg H|i t rg a data lines H HD
                  |i t rg a data lines H HD|i t v H Hlen|v rest Ha Hst'
                  |Ha Hst' Hclosed|Hmn Hall|Hmn|Hmn];
      try (rewrite Hw in H; discriminate H);
      try (rewrite Hst in Hst'; discriminate Hst');
      state_simpl; repeat split; assumption.
Qed.

Lemma idle_exits (k : nat) s :
  workers s = [] -> status s = [] ->
  main_weight (main_pc s) + (if aggregator_done s then 0 else 1)
  <= Z.of_nat k ->
  all_runs_exit chunkSize size s.
Proof.
  revert s. induction k as [|k IH]; intros s Hw Hst Hk.
  - destruct (main_pc s) as [| | |code] eqn:Hm;
      [| | |apply are_exited; exists code; exact Hm];
      cbn in Hk; destruct (aggregator_done s); lia.
  - destruct (main_pc s) as [| | |code] eqn:Hm;
      [| | |apply are_exited; exists code; exact Hm];
      (apply are_step;
       [ exists EvMain; unfold step, main_step; rewrite Hm, ?Hw; cbn;
         intros E; apply (f_equal main_pc) in E; state_simpl;
         rewrite Hm in E; discriminate E
       | intros ev Hev;
         destruct (step_trans chunkSize size s ev) as [E|T];
         [contradiction|];
         destruct T as [i c' H HN|i c' rg H HN|i t rg H
                       |i t rg a data lines H HD|i t rg a data lines H HD
                       |i t v H Hlen|v rest Ha Hst'|Ha Hst' Hclosed
                       |Hmn Hall|Hmn|Hmn];
         try (rewrite Hw in H; discriminate H);
         try (rewrite Hst in Hst'; discriminate Hst');
         apply IH; state_simpl; try assumption;
         rewrite ?Hm; try (rewrite Hm in Hmn; discriminate Hmn);
         try rewrite Ha in Hk; cbn [main_weight] in Hk |- *;
         destruct (aggregator_done s); lia ]).
Qed.

End NoWorker.

(** X11: with [-conc 0] and all start-up checks passed, the program sends
    the HEAD request and nothing else: no cursor fetch, no GET, no write,
    no notification; every scheduling ends in the exit of the process, with
    status 0. *)
Theorem no_worker_no_download (fl : flags) (w : world) (sched : list event)
    (size : Z) :
  (Exists (stat w) (override fl)).1 = true ->
  GetFileSize w = (Ret (size, None), [Head]) ->
  open_ok w = true -> concurrencyLevel fl = 0 ->
  let s := main fl w sched in
  http s = [Head] /\ fetched s = [] /\ file s = [] /\ notes s = []
  /\ totalDownloaded s = 0
  /\ all_runs_exit chunkSize size s
  /\ (exited s -> main_pc s = MExited 0).
Proof.
  intros Hex Hsize Hopen Hconc s.
  assert (E : s = run chunkSize size 0 sched).
  { unfold s. rewrite (main_run fl w sched size Hex Hsize Hopen) by lia.
    rewrite Hconc. reflexivity. }
  rewrite E.
  destruct (idle_run chunkSize size sched)
    as (Hw & Hst & Hf & Hi & Hfile & Hn & Hfail & Hh & Ht).
  split; [exact Hh|]. split; [exact Hf|]. split; [exact Hfile|].
  split; [exact Hn|]. split; [exact Ht|]. split.
  - apply (idle_exits chunkSize size 4); [exact Hw | exact Hst|].
    destruct (main_pc _), (aggregator_done _); cbn; lia.
  - intros [code Hm]. rewrite Hm. f_equal.
    exact (inv_exit _ _ _ _ (invariant_run chunkSize size 0 sched) code Hm).
Qed.

Lemma no_worker_no_download_witness :
  http (main (Flags "http://example.org/f" "f" false 0)
          (World StatNotExist true (HeadResponse "25") true)
          [EvAggregator; EvMain; EvMain; EvAggregator; EvMain])
  = [Head].
Proof.
  exact (proj1 (no_worker_no_download
                  (Flags "http://example.org/f" "f" false 0)
                  (World StatNotExist true (HeadResponse "25") true)
                  [EvAggregator; EvMain; EvMain; EvAggregator; EvMain]
                  25 eq_refl eq_refl eq_refl eq_refl)).
Defined.

(** ** The checks before the first request for a range *)

Lemma halted_no_get code lines reqs t a b :
  get_tickets reqs = [] -> Get t a b ∉ http (halted code lines reqs).
Proof.
  intros H Hin. cbn in Hin.
  assert (Ht : t ∈ get_tickets reqs).
  { unfold get_tickets. apply list_elem_of_bind. exists (Get t a b).
    split; [apply list_elem_of_here | exact Hin]. }
  rewrite H in Ht. inversion Ht.
Qed.

(** X12: a GET request is sent only after every check of [main] has
    passed: the destination may be written, the HEAD response carried a
    decimal [Content-Length] in [uint64] range, the file could be opened
    and [-conc] is positive.  The run is then the run of that many workers
    on that size with the constant chunk size. *)
Theorem get_only_after_checks (fl : flags) (w : world) (sched : list event)
    (t : nat) (a b : Z) :
  Get t a b ∈ http (main fl w sched) ->
  (Exists (stat w) (override fl)).1 = true
  /\ open_ok w = true /\ 0 < concurrencyLevel fl
  /\ exists size contentlength,
       head w = HeadResponse contentlength
       /\ decimal contentlength = Some size /\ U64.in_range size
       /\ main fl w sched
          = run chunkSize size (Z.to_nat (concurrencyLevel fl)) sched.
Proof.
  intros Hin.
  destruct (Exists (stat w) (override fl)) as [ok lines] eqn:HE.
  destruct ok.
  2:{ exfalso. unfold main in Hin. rewrite HE in Hin. cbn [negb] in Hin.
      revert Hin; apply halted_no_get; reflexivity. }
  pose proof (Exists_true (stat w) (override fl)) as Hlines.
  rewrite HE in Hlines. specialize (Hlines eq_refl). cbn in Hlines. subst lines.
  destruct (GetFileSize w) as [[[size [e|]]|] reqs] eqn:HG.
  - exfalso. unfold main in Hin. rewrite HE, HG in Hin. cbn [negb] in Hin.
    revert Hin. apply halted_no_get.
    unfold GetFileSize in HG. destruct (url_ok w); cbn in HG.
    + destruct (head w) as [|[|c cl]]; simplify_eq; reflexivity.
    + simplify_eq. reflexivity.
  - pose proof HG as HG'. apply GetFileSize_Ret in HG'.
    destruct HG' as (Hurl & -> & cl & Hhead & Hdec & H0 & Hmax).
    destruct (open_ok w) eqn:Hopen.
    2:{ exfalso. unfold main in Hin. rewrite HE, HG, Hopen in Hin.
        cbn [negb] in Hin. revert Hin; apply halted_no_get; reflexivity. }
    destruct (Z.ltb_spec (concurrencyLevel fl) 0) as [Hneg|Hpos].
    { exfalso. unfold main in Hin. rewrite HE, HG, Hopen in Hin.
      cbn [negb] in Hin.
      destruct (Z.ltb_spec (concurrencyLevel fl) 0); [|lia].
      revert Hin; apply halted_no_get; reflexivity. }
    assert (Hrun : main fl w sched
                   = run chunkSize size (Z.to_nat (concurrencyLevel fl)) sched).
    { apply main_run; [rewrite HE; reflexivity | exact HG | exact Hopen | exact Hpos]. }
    split; [reflexivity|]. split; [reflexivity|]. split.
    + destruct (Z.eq_dec (concurrencyLevel fl) 0) as [Hz|Hnz]; [|lia].
      exfalso. rewrite Hrun, Hz in Hin.
      change (Z.to_nat 0) with 0%nat in Hin.
      destruct (idle_run chunkSize size sched) as (_ & _ & _ & _ & _ & _ & _ & Hh & _).
      rewrite Hh in Hin. apply list_elem_of_singleton in Hin. discriminate Hin.
    + exists size, cl. split; [exact Hhead|]. split; [exact Hdec|].
      split; [|exact Hrun]. unfold U64.in_range. unfold maxUint64 in Hmax. lia.
  - exfalso. unfold main in Hin. rewrite HE, HG in Hin. cbn [negb] in Hin.
    revert Hin. apply halted_no_get.
    unfold GetFileSize in HG. destruct (url_ok w); cbn in HG.
    + destruct (head w) as [|[|c cl]]; simplify_eq; reflexivity.
    + simplify_eq.
Qed.

Lemma get_only_after_checks_witness :
  Get 0 0 10485759
  ∈ http (main (Flags "http://example.org/f" "f" false 1)
            (World StatNotExist true (HeadResponse "25") true)
            [EvWorker 0 NewRequestErr; EvWorker 0 (Sent DoErr)])
  /\ (0 < 1).
Proof.
  assert (H : Get 0 0 10485759
              ∈ http (main (Flags "http://example.org/f" "f" false 1)
                        (World StatNotExist true (HeadResponse "25") true)
                        [EvWorker 0 NewRequestErr; EvWorker 0 (Sent DoErr)])).
  { vm_compute. apply list_elem_of_further, list_elem_of_here. }
  split; [exact H|].
  exact (proj1 (proj2 (proj2 (get_only_after_checks _ _ _ _ _ _ H)))).
Defined.

(** ** Order of issue and of requests *)

(** X13: when the cursor arithmetic does not wrap, the ranges issued so far
    are at every moment, whatever the interleaving, the first chunks of the
    resource in increasing order of index, without a gap: the [k]-th range
    issued is that of index [k]. *)
Theorem issued_in_order (chunkSize size : Z) (n : nat) (sched : list event) :
  0 < chunkSize -> U64.in_range size -> (1 <= n)%nat ->
  fits chunkSize size n ->
  let s := run chunkSize size n sched in
  (issued s).*2 = take (length (issued s)) (expected_ranges chunkSize size)
  /\ (issued s).*1 = seq 0 (length (issued s))
  /\ Z.of_nat (length (issued s)) <= chunks chunkSize size.
Proof.
  intros Hc Hs Hn Hf s.
  assert (R : issued s = nth_chunk chunkSize <$>
                seq 0 (min (length (fetched s))
                         (Z.to_nat (chunks chunkSize size))))
    by (eapply run_issued; eassumption).
  pose proof (f_equal length R) as L. rewrite length_fmap, length_seq in L.
  rewrite <- L in R.
  split; [|split].
  - unfold expected_ranges. rewrite <- fmap_take, take_seq.
    rewrite Nat.min_l by lia. rewrite R at 1.
    rewrite <- list_fmap_compose. reflexivity.
  - rewrite R at 1. rewrite <- list_fmap_compose. apply list_fmap_id.
  - pose proof (chunks_nonneg chunkSize size Hc Hs). lia.
Qed.

Lemma issued_in_order_witness :
  (issued
     (run 10 25 2
        [EvWorker 1 NewRequestErr; EvWorker 0 NewRequestErr])).*2
  = take 2 (expected_ranges 10 25).
Proof.
  refine (proj1 (issued_in_order 10 25 2 _ _ _ _ _)).
  - lia.
  - split; [discriminate | reflexivity].
  - lia.
  - vm_compute. reflexivity.
Defined.

(** X14: the size is asked for once and first: the requests of any run of
    [main] are none at all or one HEAD request followed by GET requests
    only. *)
Theorem head_once (fl : flags) (w : world) (sched : list event) :
  http (main fl w sched) = []
  \/ exists gets,
       http (main fl w sched) = Head :: gets /\ Head ∉ gets.
Proof.
  assert (Hrun : forall size k lines,
            exists gets,
              http (exec chunkSize size (init k lines [Head]) sched)
              = Head :: gets /\ Head ∉ gets).
  { intros size k lines. apply exec_ind.
    - exists []. split; [reflexivity | intros Hin; inversion Hin].
    - intros s1 s2 (gets & E & Hno) T.
      destruct T; state_simpl;
        try (exists gets; split; assumption);
        (eexists (gets ++ [_]); rewrite E; split; [reflexivity|];
         intros [Hin|Hin]%elem_of_app; [exact (Hno Hin)|];
         apply list_elem_of_singleton in Hin; discriminate Hin). }
  assert (Hhead : forall code lines,
            exists gets,
              http (halted code lines [Head]) = Head :: gets /\ Head ∉ gets).
  { intros code lines. exists []. split; [reflexivity|].
    intros Hin. inversion Hin. }
  unfold main. destruct (Exists (stat w) (override fl)) as [[|] lines];
    cbn [negb]; [|left; reflexivity].
  unfold GetFileSize. destruct (url_ok w); cbn [negb]; [|left; reflexivity].
  destruct (head w) as [|[|c cl]]; [right; apply Hhead..|].
  destruct (ParseUint (String c cl)) as [sz [e|]]; [right; apply Hhead|].
  destruct (open_ok w); cbn [negb]; [|right; apply Hhead].
  destruct (concurrencyLevel fl <? 0); right; [apply Hhead | apply Hrun].
Qed.

(** ** The file while the run goes on, and with failures *)

Lemma file_at_unwritten log pos :
  (forall w, w ∈ log -> byte_of w pos = None) -> file_at log pos = None.
Proof.
  intros H. destruct (file_at log pos) as [b|] eqn:E; [|reflexivity].
  destruct (file_at_Some _ _ _ E) as (w & Hin & Hb).
  rewrite (H w Hin) in Hb. discriminate Hb.
Qed.

Section Safety.

Variable chunkSize : Z.
Variable size : Z.
Variable n : nat.
Hypothesis chunkSize_pos : 0 < chunkSize.
Hypothesis size_range : U64.in_range size.
Hypothesis workers_pos : (1 <= n)%nat.
Hypothesis cursor_fits : fits chunkSize size n.

Variable sched : list event.
Variable resource : list Byte.byte.
Hypothesis resource_size : size = Z.of_nat (length resource).
Hypothesis offsets_fit : size <= U64.half.

Local Abbreviation m := (chunks chunkSize size).
Local Abbreviation s := (run chunkSize size n sched).

Hypothesis honest :
  forall w r, w ∈ file s -> (w_ticket w, r) ∈ issued s ->
    w_data w `prefix_of` slice resource r.

(** A write of the run lies inside the chunk of its claim and stores bytes
    of the resource. *)
Lemma write_place w :
  w ∈ file s ->
  w_off w = Z.of_nat (w_ticket w) * chunkSize
  /\ Z.of_nat (w_ticket w) < m
  /\ forall pos b,
       byte_of w pos = Some b ->
       resource !! Z.to_nat pos = Some b
       /\ w_off w <= pos < w_off w + chunkSize.
Proof.
  intros Hw. pose proof (invariant_run chunkSize size n sched) as I.
  destruct (inv_file _ _ _ _ I w Hw) as (r & Hr & Hoff).
  pose proof (honest w r Hw Hr) as Hdata.
  assert (E : r = range_of chunkSize (Z.of_nat (w_ticket w))
              /\ Z.of_nat (w_ticket w) < m)
    by (eapply run_issued_chunk; eassumption).
  destruct E as [-> Ht].
  assert (Hlt : Z.of_nat (w_ticket w) * chunkSize < size)
    by (apply (chunks_spec chunkSize size chunkSize_pos); exact Ht).
  cbn [first range_of] in Hoff. rewrite to_int_small in Hoff by lia.
  split; [exact Hoff|]. split; [exact Ht|].
  intros pos b. unfold byte_of. rewrite Hoff.
  destruct (Z.leb_spec (Z.of_nat (w_ticket w) * chunkSize) pos) as [Hle|Hgt];
    [|discriminate].
  intros Hb. eapply prefix_lookup_Some in Hb; [|exact Hdata].
  unfold slice in Hb. cbn [first last range_of] in Hb.
  apply lookup_take_Some in Hb as [Hb Hi]. rewrite lookup_drop in Hb.
  split; [|lia]. rewrite <- Hb. f_equal. lia.
Qed.

Lemma safe_bytes pos b :
  file_at (file s) pos = Some b ->
  0 <= pos < size /\ resource !! Z.to_nat pos = Some b.
Proof.
  intros E. destruct (file_at_Some _ _ _ E) as (w & Hw & Hb).
  destruct (write_place w Hw) as (Hoff & Ht & Hbyte).
  destruct (Hbyte pos b Hb) as [Hres Hpos].
  split; [|exact Hres].
  apply lookup_lt_Some in Hres. lia.
Qed.

Lemma gap pos :
  0 <= pos ->
  (forall w, w ∈ file s -> w_ticket w <> Z.to_nat (pos / chunkSize)) ->
  file_at (file s) pos = None.
Proof.
  intros Hpos Hnone. apply file_at_unwritten. intros w Hw.
  destruct (byte_of w pos) as [b|] eqn:Hb; [|reflexivity]. exfalso.
  destruct (write_place w Hw) as (Hoff & Ht & Hbyte).
  destruct (Hbyte pos b Hb) as [_ Hin]. apply (Hnone w Hw).
  rewrite Hoff in Hin.
  assert (E : pos / chunkSize = Z.of_nat (w_ticket w)).
  { symmetry. apply (Z.div_unique _ _ _ (pos - Z.of_nat (w_ticket w) * chunkSize));
      [left; lia | ring]. }
  rewrite E. lia.
Qed.

Lemma succeeded_bytes t pos :
  t ∈ succeeded s ->
  (forall w r, w ∈ file s -> w_ticket w = t -> (t, r) ∈ issued s ->
     w_data w = slice resource r) ->
  Z.of_nat t * chunkSize <= pos < Z.of_nat t * chunkSize + chunkSize ->
  file_at (file s) pos = resource !! Z.to_nat pos.
Proof.
  intros Ht Hfull Hpos. apply file_at_agree.
  - intros w b Hw Hb. destruct (write_place w Hw) as (_ & _ & Hbyte).
    destruct (Hbyte pos b Hb) as [Hres _]. exact Hres.
  - intros Hx.
    pose proof (invariant_run chunkSize size n sched) as I.
    assert (Hin : t ∈ w_ticket <$> file s).
    { eapply elem_of_sublist; [exact Ht | apply succeeded_written]. }
    apply list_elem_of_fmap in Hin as (w & Ew & Hw).
    exists w. split; [exact Hw|].
    destruct (inv_file _ _ _ _ I w Hw) as (r & Hr & Hoff).
    rewrite <- Ew in Hr.
    pose proof (Hfull w r Hw (eq_sym Ew) Hr) as Hdata.
    assert (E : r = range_of chunkSize (Z.of_nat t) /\ Z.of_nat t < m)
      by (eapply run_issued_chunk; eassumption).
    destruct E as [-> Hlt].
    assert (Hlt' : Z.of_nat t * chunkSize < size)
      by (apply (chunks_spec chunkSize size chunkSize_pos); exact Hlt).
    cbn [first range_of] in Hoff. rewrite to_int_small in Hoff by lia.
    unfold byte_of. rewrite Hoff, Hdata. unfold slice.
    cbn [first last range_of].
    destruct (Z.leb_spec (Z.of_nat t * chunkSize) pos); [|lia].
    rewrite lookup_take_lt by lia. rewrite lookup_drop.
    replace (Z.to_nat (Z.of_nat t * chunkSize)
             + Z.to_nat (pos - Z.of_nat t * chunkSize))%nat
      with (Z.to_nat pos) by lia.
    exact Hx.
Qed.

End Safety.

(** X15: the file never holds a wrong byte.  When the cursor arithmetic
    does not wrap, the size is at most [2^63] and every payload written is a
    prefix of the range asked for (the whole range, or what a copy moved
    before it failed), then in every reachable state, failures included:
    a byte present in the file is the byte of the resource at its position;
    a position whose chunk has no write is absent, so a claim that failed
    before writing leaves a gap over exactly its range; and the positions of
    a chunk whose download returned nil with the whole range hold the bytes
    of the resource. *)
Theorem file_never_wrong (chunkSize size : Z) (n : nat) (sched : list event)
    (resource : list Byte.byte) :
  0 < chunkSize -> (1 <= n)%nat -> fits chunkSize size n ->
  size = Z.of_nat (length resource) -> size <= U64.half ->
  let s := run chunkSize size n sched in
  (forall w r, w ∈ file s -> (w_ticket w, r) ∈ issued s ->
     w_data w `prefix_of` slice resource r) ->
  (forall pos b, file_at (file s) pos = Some b ->
     0 <= pos < size /\ resource !! Z.to_nat pos = Some b)
  /\ (forall pos, 0 <= pos ->
        (forall w, w ∈ file s -> w_ticket w <> Z.to_nat (pos / chunkSize)) ->
        file_at (file s) pos = None)
  /\ (forall t pos, t ∈ succeeded s ->
        (forall w r, w ∈ file s -> w_ticket w = t -> (t, r) ∈ issued s ->
           w_data w = slice resource r) ->
        Z.of_nat t * chunkSize <= pos < Z.of_nat t * chunkSize + chunkSize ->
        file_at (file s) pos = resource !! Z.to_nat pos).
Proof.
  intros Hc Hn Hf Hsize Hhalf s Hhonest.
  assert (Hs : U64.in_range size).
  { unfold U64.in_range, U64.half, U64.modulus in *. lia. }
  split; [|split].
  - intros pos b. eapply safe_bytes; eassumption.
  - intros pos. eapply gap; eassumption.
  - intros t pos. eapply succeeded_bytes; eassumption.
Qed.

Lemma file_never_wrong_witness :
  file_at
    (file
       (run 10 25 3
          [EvWorker 0 NewRequestErr; EvWorker 1 NewRequestErr;
           EvWorker 2 NewRequestErr; EvWorker 0 (Sent DoErr);
           EvWorker 1
             (Sent (Resp 206 (replicate 10 Byte.x62) (Some 4%nat)));
           EvWorker 2 (Sent (Resp 206 (replicate 5 Byte.x63) None));
           EvWorker 2 NewRequestErr; EvAggregator; EvWorker 2 NewRequestErr;
           EvMain; EvMain; EvMain])) 5
  = None.
Proof.
  refine (proj1 (proj2
            (file_never_wrong 10 25 3 _
               (replicate 10 Byte.x61 ++ replicate 10 Byte.x62
                ++ replicate 5 Byte.x63) _ _ _ _ _ _)) 5 _ _).
  - lia.
  - lia.
  - vm_compute. reflexivity.
  - vm_compute. reflexivity.
  - vm_compute. discriminate.
  - intros w r Hw Hr. apply list_elem_of_In in Hw, Hr. revert Hw Hr.
    match goal with
    | |- In _ ?f -> In _ ?i -> _ =>
        let f' := eval vm_compute in f in
        let i' := eval vm_compute in i in
        replace f with f' by (vm_compute; reflexivity);
        replace i with i' by (vm_compute; reflexivity)
    end.
    intros Hw Hr. cbn [In] in Hw.
    repeat (destruct Hw as [<-|Hw];
            [ cbn [In w_ticket] in Hr;
              repeat (destruct Hr as [Hr|Hr];
                      [ try discriminate Hr; injection Hr as <-;
                        first [ reflexivity
                              | exists (replicate 6 Byte.x62); reflexivity ]
                      |]);
              destruct Hr
            | ]).
    destruct Hw.
  - lia.
  - intros w Hw. apply list_elem_of_In in Hw. revert Hw.
    match goal with
    | |- In _ ?f -> _ =>
        let f' := eval vm_compute in f in
        replace f with f' by (vm_compute; reflexivity)
    end.
    intros Hw. cbn [In] in Hw.
    repeat (destruct Hw as [<-|Hw]; [discriminate|]). destruct Hw.
Defined.

(** ** After [wg.Wait] *)

(** Once every worker has returned no transition touches what the workers
    own. *)
Lemma done_trans chunkSize size s1 s2 :
  forallb is_done (workers s1) = true ->
  trans chunkSize size s1 s2 ->
  workers s2 = workers s1 /\ partCount s2 = partCount s1
  /\ fetched s2 = fetched s1 /\ issued s2 = issued s1
  /\ http s2 = http s1 /\ file s2 = file s1 /\ notes s2 = notes s1
  /\ succeeded s2 = succeeded s1 /\ failed s2 = failed s1.
Proof.
  intros Hd T.
  destruct T as [i c' H HN|i c' rg H HN|i t rg H|i t rg a data lines H HD
                |i t rg a data lines H HD|i t v H Hlen|v rest Ha Hst'
                |Ha Hst' Hclosed|Hmn Hall|Hmn|Hmn];
    try (pose proof (forallb_is_done_lookup _ _ _ Hd H) as E; discriminate E);
    state_simpl; repeat split; reflexivity.
Qed.

(** X16: nothing is sent on the closed channel and nothing is written to
    the closed file.  Once [wg.Wait] has returned, and so before
    [close(status)] and [file.Close()] run, every worker has returned; from
    then on, whatever is scheduled, no worker fetches the cursor, sends a
    request, writes to the file or sends a notification. *)
Theorem nothing_after_wait (chunkSize size : Z) (n : nat)
    (sched sched' : list event) :
  let s := run chunkSize size n sched in
  let s' := run chunkSize size n (sched ++ sched') in
  main_pc s <> MWait \/ status_closed s = true ->
  forallb is_done (workers s) = true
  /\ workers s' = workers s /\ partCount s' = partCount s
  /\ fetched s' = fetched s /\ issued s' = issued s
  /\ http s' = http s /\ file s' = file s /\ notes s' = notes s
  /\ succeeded s' = succeeded s /\ failed s' = failed s.
Proof.
  intros s s' H.
  pose proof (invariant_run chunkSize size n sched) as I. fold s in I.
  assert (Hd : forallb is_done (workers s) = true).
  { apply (inv_wait _ _ _ _ I).
    destruct H as [H|H]; [exact H | apply (inv_closed _ _ _ _ I H)]. }
  split; [exact Hd|].
  unfold s', run. rewrite exec_app. fold (run chunkSize size n sched). fold s.
  apply (exec_ind chunkSize size
           (fun s2 =>
              workers s2 = workers s /\ partCount s2 = partCount s
              /\ fetched s2 = fetched s /\ issued s2 = issued s
              /\ http s2 = http s /\ file s2 = file s /\ notes s2 = notes s
              /\ succeeded s2 = succeeded s /\ failed s2 = failed s)).
  - repeat split; reflexivity.
  - intros s1 s2 (Ew & Ep & Ef & Ei & Eh & Efile & En & Es & Efail) T.
    assert (Hd1 : forallb is_done (workers s1) = true) by (rewrite Ew; exact Hd).
    destruct (done_trans _ _ _ _ Hd1 T)
      as (Ew' & Ep' & Ef' & Ei' & Eh' & Efile' & En' & Es' & Efail').
    rewrite Ew', Ep', Ef', Ei', Eh', Efile', En', Es', Efail'.
    repeat split; assumption.
Qed.

Lemma nothing_after_wait_witness :
  notes
    (run 10 5 1
       ([EvWorker 0 NewRequestErr;
         EvWorker 0 (Sent (Resp 206 (replicate 5 Byte.x61) None));
         EvWorker 0 NewRequestErr; EvWorker 0 NewRequestErr; EvMain; EvMain]
        ++ [EvWorker 0 NewRequestErr; EvAggregator; EvWorker 0 NewRequestErr]))
  = notes
      (run 10 5 1
         [EvWorker 0 NewRequestErr;
          EvWorker 0 (Sent (Resp 206 (replicate 5 Byte.x61) None));
          EvWorker 0 NewRequestErr; EvWorker 0 NewRequestErr; EvMain; EvMain]).
Proof.
  refine (proj1 (proj2 (proj2 (proj2 (proj2 (proj2 (proj2 (proj2
            (nothing_after_wait 10 5 1 _ _ _))))))))).
  right. vm_compute. reflexivity.
Defined.
